(** * chython reactor core: [BaseReactor._get_deleted] and [BaseReactor._patcher]

    Shallow embedding of [chython/reactor/base.py] and the properties of
    its specification.

    Conventions of the embedding:
    - atom identifiers are Python integers, here [Z];
    - a Python [dict] is an association list in insertion order
      ([Dict.get], [Dict.set]); the caller's [mapping], whose order is
      never observed, is a [gmap Z Z]; Python sets are [gset Z];
    - atom and bond objects are mutable and live in a store ([Heap]);
      the tables of a graph hold references into it, so that sharing
      between the host and the patched graph is visible;
    - exceptions are values of [PyError]; a raising computation keeps the
      state it had reached. *)

From stdpp Require Import gmap list sets.
From Stdlib Require Import ZArith Lia.
From Stdlib Require QArith.

Local Open Scope Z_scope.

(** ** Python dictionaries as insertion-ordered association lists *)

Module Dict.
Section dict.
Context {V : Type}.

  (** [d.get(k)] *)
Fixpoint get (d : list (Z * V)) (k : Z) : option V :=
    match d with
    | [] => None
    | (k', v) :: d' => if decide (k = k') then Some v else get d' k
    end.

  (** [d[k] = v]: an existing key keeps its position, a new key goes last *)
Fixpoint set (k : Z) (v : V) (d : list (Z * V)) : list (Z * V) :=
    match d with
    | [] => [(k, v)]
    | (k', v') :: d' =>
        if decide (k = k') then (k, v) :: d' else (k', v') :: set k v d'
    end.

  (** [list(d)], [d.keys()] *)
Definition keys (d : list (Z * V)) : list Z := d.*1.

  (** [set(d)] *)
Definition dom (d : list (Z * V)) : gset Z := list_to_set (keys d).

  (** [k in d] *)
Definition mem (k : Z) (d : list (Z * V)) : bool :=
    match get d k with Some _ => true | None => false end.
End dict.
End Dict.

(** ** Errors *)

Inductive PyError :=
| UnmatchedAnyElement      (* ValueError("AnyElement doesn't match to pattern") *)
| AmbiguousHydrogenCount   (* ValueError('Query element in patch has more than one implicit hydrogen') *)
| UnsupportedQueryAtom     (* TypeError('Unsupported query atom type') *)
| VariableBond             (* ValueError('Variable bond in replacement') *)
| EmptyMax                 (* ValueError of max() on an empty table *)
| KeyError                 (* subscript of a missing key *)
| LoopFuel.                (* the bound of the [while] loop was hit; see [walk_total] *)

Inductive result (A : Type) :=
| Ok (a : A)
| Err (e : PyError).
Arguments Ok {A} a.
Arguments Err {A} e.

Definition rbind {A B} (x : result A) (f : A → result B) : result B :=
  match x with Ok a => f a | Err e => Err e end.

(** [d[k]] *)
Definition subscript {V} (d : list (Z * V)) (k : Z) : result V :=
  match Dict.get d k with Some v => Ok v | None => Err KeyError end.

(** ** Data model *)

Definition loc := positive.

(** [Element]: the fields the reactor reads and writes *)
Record Atom := mkAtom {
  atomic_number : Z;
  isotope : option Z;
  charge : Z;
  is_radical : bool;
  implicit_hydrogens : option Z;
  stereo : option bool;
  xy : QArith_base.Q * QArith_base.Q
}.

(** [Bond] *)
Record Bond := mkBond {
  order : Z;
  bstereo : option bool
}.

(** the store of atom and bond objects *)
Record Heap := mkHeap {
  atom_obj : gmap loc Atom;
  bond_obj : gmap loc Bond
}.

(** [MoleculeContainer]: [_atoms] and [_bonds] *)
Record Graph := mkGraph {
  _atoms : list (Z * loc);
  _bonds : list (Z * list (Z * loc))
}.

(** atoms of a replacement *)
Inductive TAtom :=
| AnyElement (t_charge : Z) (t_radical : bool) (t_stereo : option bool)
| QueryElement (t_number : Z) (t_isotope : option Z) (t_charge : Z)
    (t_radical : bool) (t_stereo : option bool) (t_hydrogens : list Z)
| Element (t_number : Z) (t_isotope : option Z) (t_charge : Z)
    (t_radical : bool) (t_stereo : option bool) (t_hydrogens : option Z)
    (t_xy : QArith_base.Q * QArith_base.Q).

(** bonds of a replacement: [order] is a tuple for a [QueryBond] *)
Record TBond := mkTBond {
  tb_order : list Z;
  tb_stereo : option bool
}.

Record Replacement := mkReplacement {
  r_is_query : bool;                     (* isinstance(replacement, QueryContainer) *)
  r_atoms : list (Z * TAtom);
  r_bonds : list (Z * list (Z * TBond))
}.

Record Reactor := mkReactor {
  _to_delete : gset Z;
  _replacement : Replacement;
  _fix_rings : bool;
  _fix_tautomers : bool
}.

(** ** [BaseReactor.__init__] *)

Definition is_query_atom (a : TAtom) : bool :=
  match a with AnyElement _ _ _ | QueryElement _ _ _ _ _ _ => true | _ => false end.

Definition check_replacement (rep : Replacement) : result unit :=
  if r_is_query rep then
    if forallb (λ na, is_query_atom na.2) (r_atoms rep) then
      if forallb (λ nbs, forallb (λ mb, bool_decide (length (tb_order mb.2) ≤ 1)%nat) nbs.2)
           (r_bonds rep)
      then Ok ()
      else Err VariableBond
    else Err UnsupportedQueryAtom
  else Ok ().

(** [pattern] is given by its atoms with their [masked] flag *)
Definition BaseReactor_init (pattern : list (Z * bool)) (replacement : Replacement)
    (delete_atoms fix_rings fix_tautomers : bool) : result Reactor :=
  rbind (check_replacement replacement) (λ _,
    Ok {| _to_delete :=
            if delete_atoms
            then list_to_set (filter (λ na, na.2 = false) pattern).*1 ∖ Dict.dom (r_atoms replacement)
            else ∅;
          _replacement := replacement;
          _fix_rings := fix_rings;
          _fix_tautomers := fix_tautomers |}).

(** ** [BaseReactor._get_deleted] *)

Inductive WalkResult :=
| Reached (global_seen : gset Z)                 (* the loop left by [break] *)
| Exhausted (seen global_seen : gset Z).         (* the [else] of the loop *)

(** every neighbour occurring in a bond table, and the longest row *)
Definition all_neighbours (bonds : list (Z * list (Z * loc))) : list Z :=
  concat (map (λ nbs, Dict.keys nbs.2) bonds).

Definition max_degree (bonds : list (Z * list (Z * loc))) : nat :=
  foldr (λ nbs acc, Nat.max (length nbs.2) acc) 0%nat bonds.

Section get_deleted.
Variable bonds : list (Z * list (Z * loc)).
Variables to_delete remain : gset Z.

  (** [[x for x in bonds[current] if x not in global_seen]], pushed on a
      stack whose top is the head of the list ([stack.pop()] takes the
      last element of a Python list) *)
Definition push (row : list (Z * loc)) (global_seen : gset Z) (stack : list Z) : list Z :=
    reverse (filter (λ x, x ∉ global_seen) (Dict.keys row)) ++ stack.

  (** the [while stack] loop. It terminates by the lexicographic measure
      (atoms not yet in [global_seen], weight of the stack): [fa] bounds
      the first component, [fb] the second. *)
Fixpoint walk (fa : nat) : nat → list Z → gset Z → gset Z → result WalkResult :=
    fix loop (fb : nat) (stack : list Z) (seen global_seen : gset Z) {struct fb} :=
      match stack with
      | [] => Ok (Exhausted seen global_seen)
      | current :: stack =>
          if decide (current ∈ remain) then Ok (Reached global_seen)
          else if decide (current ∈ to_delete) then
            match fb with
            | O => Err LoopFuel
            | S fb => loop fb stack seen global_seen
            end
          else
            match Dict.get bonds current with
            | None => Err KeyError
            | Some row =>
                let seen' := {[current]} ∪ seen in
                let global_seen' := {[current]} ∪ global_seen in
                let stack' := push row global_seen' stack in
                if decide (current ∈ global_seen) then
                  match fb with
                  | O => Err LoopFuel
                  | S fb => loop fb stack' seen' global_seen'
                  end
                else
                  match fa with
                  | O => Err LoopFuel
                  | S fa =>
                      walk fa (S ((max_degree bonds + 2) * length stack')) stack' seen'
                        global_seen'
                  end
            end
      end.

  (** one branch: lines 54-67 for a start atom [n] *)
Definition branch (n : Z) (global_seen : gset Z) : result WalkResult :=
    rbind (subscript bonds n) (λ row,
      let global_seen' := {[n]} ∪ global_seen in
      let stack := push row global_seen' [] in
      walk (S (length (all_neighbours bonds)))
        (S ((max_degree bonds + 2) * length stack)) stack {[n]} global_seen').

  (** [for n in bonds[x]] *)
Fixpoint scan_neighbours (ns : list Z) (delete global_seen : gset Z)
      : result (gset Z * gset Z) :=
    match ns with
    | [] => Ok (delete, global_seen)
    | n :: ns =>
        if decide (n ∈ global_seen ∨ n ∈ remain) then scan_neighbours ns delete global_seen
        else
          match branch n global_seen with
          | Err e => Err e
          | Ok (Reached global_seen') => scan_neighbours ns delete global_seen'
          | Ok (Exhausted seen global_seen') =>
              scan_neighbours ns (delete ∪ seen) global_seen'
          end
    end.

  (** [for x in to_delete] *)
Fixpoint scan_core (xs : list Z) (delete global_seen : gset Z)
      : result (gset Z * gset Z) :=
    match xs with
    | [] => Ok (delete, global_seen)
    | x :: xs =>
        match subscript bonds x with
        | Err e => Err e
        | Ok row =>
            match scan_neighbours (Dict.keys row) delete global_seen with
            | Err e => Err e
            | Ok (delete', global_seen') => scan_core xs delete' global_seen'
            end
        end
    end.
End get_deleted.
Global Arguments walk : simpl never.

(** the second component of the measure of [walk]: an atom already in
    [global_seen] weighs more than all it can push *)
Fixpoint weight (bonds : list (Z * list (Z * loc))) (g : gset Z) (stack : list Z) : nat :=
  match stack with
  | [] => 0
  | x :: stack =>
      (if decide (x ∈ g) then max_degree bonds + 2 else 1) + weight bonds g stack
  end%nat.

(** the walks of a run, in the order they are made: the start atom, the
    value of [global_seen] when it is examined, and how the walk ends *)
Record Branch := mkBranch {
  b_start : Z;
  b_before : gset Z;
  b_result : WalkResult
}.

Definition after (r : WalkResult) : gset Z :=
  match r with Reached g => g | Exhausted _ g => g end.

(** what a walk adds to [delete] *)
Definition contribution (r : WalkResult) : gset Z :=
  match r with Reached _ => ∅ | Exhausted seen _ => seen end.

(** the atoms a walk visited *)
Definition visited (b : Branch) : gset Z := after (b_result b) ∖ b_before b.

Definition committed (log : list Branch) : gset Z :=
  ⋃ (map (λ b, contribution (b_result b)) log).

Section branches.
Variable bonds : list (Z * list (Z * loc)).
Variables to_delete remain : gset Z.

Fixpoint branches_of_neighbours (ns : list Z) (global_seen : gset Z)
    : result (list Branch * gset Z) :=
  match ns with
  | [] => Ok ([], global_seen)
  | n :: ns =>
      if decide (n ∈ global_seen ∨ n ∈ remain) then branches_of_neighbours ns global_seen
      else
        match branch bonds to_delete remain n global_seen with
        | Err e => Err e
        | Ok r =>
            rbind (branches_of_neighbours ns (after r))
              (λ '(log, g), Ok (mkBranch n global_seen r :: log, g))
        end
  end.

Fixpoint branches_of_core (xs : list Z) (global_seen : gset Z)
    : result (list Branch * gset Z) :=
  match xs with
  | [] => Ok ([], global_seen)
  | x :: xs =>
      match subscript bonds x with
      | Err e => Err e
      | Ok row =>
          match branches_of_neighbours (Dict.keys row) global_seen with
          | Err e => Err e
          | Ok (log, g) =>
              rbind (branches_of_core xs g) (λ '(log', g'), Ok (log ++ log', g'))
          end
      end
  end.
End branches.

(** a log is chained from [g]: every walk starts from the [global_seen]
    its predecessor left, at an atom that passed the test of line 52 *)
Fixpoint chained (bonds : list (Z * list (Z * loc))) (to_delete remain : gset Z)
    (g : gset Z) (log : list Branch) : Prop :=
  match log with
  | [] => True
  | b :: log =>
      b_before b = g ∧ b_start b ∉ g ∧ b_start b ∉ remain ∧
      branch bonds to_delete remain (b_start b) g = Ok (b_result b) ∧
      chained bonds to_delete remain (after (b_result b)) log
  end.

(** [global_seen] at the end of a log *)
Definition log_end (g : gset Z) (log : list Branch) : gset Z :=
  foldl (λ _ b, after (b_result b)) g log.

(** [n] is a neighbour of one of the atoms [xs] *)
Definition core_neighbour (bonds : list (Z * list (Z * loc))) (xs : list Z) (n : Z) : Prop :=
  ∃ x row, x ∈ xs ∧ Dict.get bonds x = Some row ∧ n ∈ Dict.keys row.

(** every neighbour has a row of its own *)
Definition closed_bonds (bonds : list (Z * list (Z * loc))) : Prop :=
  ∀ n row m, Dict.get bonds n = Some row → m ∈ Dict.keys row → is_Some (Dict.get bonds m).

(** scenario B of the specification: A-B-C, B-D, D-C with A = 1, B = 2,
    C = 3, D = 4; the rows list the neighbours in the orders [kA] .. [kD] *)
Definition scenario_B (l : Z → Z → loc) (kA kB kC kD : list Z) : Graph :=
  {| _atoms := [(1, l 1 1); (2, l 2 2); (3, l 3 3); (4, l 4 4)];
     _bonds := [(1, map (λ m, (m, l 1 m)) kA); (2, map (λ m, (m, l 2 m)) kB);
                (3, map (λ m, (m, l 3 m)) kC); (4, map (λ m, (m, l 4 m)) kD)] |}.

(** the reactor of scenario B: the pattern is A-B-C (atoms 10, 20, 30),
    the replacement keeps A and C and bonds them *)
Definition scenario_B_reactor : Reactor :=
  {| _to_delete := {[20]};
     _replacement :=
       {| r_is_query := true;
          r_atoms := [(10, AnyElement 0 false None); (30, AnyElement 0 false None)];
          r_bonds := [(10, [(30, mkTBond [1] None)]); (30, [(10, mkTBond [1] None)])] |};
     _fix_rings := false;
     _fix_tautomers := false |}.

(** [{mapping[x] for x in xs}] *)
Fixpoint map_core (mapping : gmap Z Z) (xs : list Z) : result (gset Z) :=
  match xs with
  | [] => Ok ∅
  | x :: xs =>
      match mapping !! x with
      | None => Err KeyError
      | Some m => rbind (map_core mapping xs) (λ s, Ok ({[m]} ∪ s))
      end
  end.

Section reactor.
  (** the order in which Python enumerates a set is not specified *)
Variable set_iter : gset Z → list Z.

Definition _get_deleted (self : Reactor) (structure : Graph) (mapping : gmap Z Z)
      : result (gset Z) :=
    if decide (_to_delete self = ∅) then Ok ∅
    else
      rbind (map_core mapping (set_iter (_to_delete self))) (λ to_delete,
        let remain := map_img mapping ∖ to_delete in
        rbind (scan_core (_bonds structure) to_delete remain (set_iter to_delete) ∅ ∅)
          (λ '(delete, _), Ok (to_delete ∪ delete))).
End reactor.

(** ** State and exceptions of [_patcher] *)

(** the routines of the graph library that modify the new graph; the
    trace of a run lists their calls in order. The look-ups in the stereo
    index and the sign translations of lines 172-190 return a value, they
    are applied as functions of [Externals] and leave no entry here. *)
Inductive ExtCall :=
| CalcImplicit (n : Z)
| CalcLabels
| Kekule
| Thiele (fix_tautomers : bool)
| FixStereo.

Record State := mkState {
  heap : Heap;               (* atom and bond objects *)
  mapping : gmap Z Z;        (* the dict passed by the caller, updated in place *)
  calls : list ExtCall       (* external routines called so far, oldest first *)
}.

(** a computation that may raise; the state it reached is kept *)
Definition M (A : Type) : Type := State → result A * State.

Definition ret {A} (a : A) : M A := λ σ, (Ok a, σ).

Definition raise {A} (e : PyError) : M A := λ σ, (Err e, σ).

Definition bind {A B} (m : M A) (f : A → M B) : M B :=
  λ σ, match m σ with
       | (Ok a, σ') => f a σ'
       | (Err e, σ') => (Err e, σ')
       end.

Global Instance M_ret : MRet M := @ret.
Global Instance M_bind : MBind M := λ A B f m, bind m f.

Definition lift {A} (r : result A) : M A := λ σ, (r, σ).

Definition get_heap : M Heap := λ σ, (Ok (heap σ), σ).

Definition put_heap (h : Heap) : M unit :=
  λ σ, (Ok (), {| heap := h; mapping := mapping σ; calls := calls σ |}).

(** [mapping.get(n)] *)
Definition mapping_get (n : Z) : M (option Z) := λ σ, (Ok (mapping σ !! n), σ).

(** [mapping[n]] *)
Definition mapping_subscript (n : Z) : M Z :=
  λ σ, (match mapping σ !! n with Some m => Ok m | None => Err KeyError end, σ).

(** [mapping[n] = m] *)
Definition mapping_set (n m : Z) : M unit :=
  λ σ, (Ok (), {| heap := heap σ; mapping := <[n := m]> (mapping σ); calls := calls σ |}).

Definition call (c : ExtCall) : M unit :=
  λ σ, (Ok (), {| heap := heap σ; mapping := mapping σ; calls := calls σ ++ [c] |}).

(** [for x in xs: acc = body(x, acc)] *)
Fixpoint for_ {X A} (xs : list X) (body : X → A → M A) (acc : A) : M A :=
  match xs with
  | [] => ret acc
  | x :: xs => acc' ← body x acc; for_ xs body acc'
  end.

(** objects. A reference held by a graph denotes an object of the store;
    the default below is what a store that lacks it would give. *)
Definition origin : QArith_base.Q * QArith_base.Q :=
  (QArith_base.Qmake 0 1, QArith_base.Qmake 0 1).

Definition no_atom : Atom :=
  {| atomic_number := 0; isotope := None; charge := 0; is_radical := false;
     implicit_hydrogens := None; stereo := None; xy := origin |}.

Definition no_bond : Bond := {| order := 0; bstereo := None |}.

Definition atom_at (h : Heap) (l : loc) : Atom := default no_atom (atom_obj h !! l).

Definition bond_at (h : Heap) (l : loc) : Bond := default no_bond (bond_obj h !! l).

Definition read_atom (l : loc) : M Atom := λ σ, (Ok (atom_at (heap σ) l), σ).

Definition read_bond (l : loc) : M Bond := λ σ, (Ok (bond_at (heap σ) l), σ).

(** a new object gets a reference no object of the store has *)
Definition new_atom (a : Atom) : M loc :=
  h ← get_heap;
  let l := fresh (dom (atom_obj h)) in
  put_heap {| atom_obj := <[l := a]> (atom_obj h); bond_obj := bond_obj h |};;
  ret l.

Definition new_bond (b : Bond) : M loc :=
  h ← get_heap;
  let l := fresh (dom (bond_obj h)) in
  put_heap {| atom_obj := atom_obj h; bond_obj := <[l := b]> (bond_obj h) |};;
  ret l.

(** [a._stereo = s] and [a._implicit_hydrogens = k] on the object at [l] *)
Definition set_stereo (s : option bool) (a : Atom) : Atom :=
  {| atomic_number := atomic_number a; isotope := isotope a; charge := charge a;
     is_radical := is_radical a; implicit_hydrogens := implicit_hydrogens a;
     stereo := s; xy := xy a |}.

Definition set_hydrogens (k : option Z) (a : Atom) : Atom :=
  {| atomic_number := atomic_number a; isotope := isotope a; charge := charge a;
     is_radical := is_radical a; implicit_hydrogens := k;
     stereo := stereo a; xy := xy a |}.

Definition set_xy (c : QArith_base.Q * QArith_base.Q) (a : Atom) : Atom :=
  {| atomic_number := atomic_number a; isotope := isotope a; charge := charge a;
     is_radical := is_radical a; implicit_hydrogens := implicit_hydrogens a;
     stereo := stereo a; xy := c |}.

Definition set_charge (c : Z) (r : bool) (a : Atom) : Atom :=
  {| atomic_number := atomic_number a; isotope := isotope a; charge := c;
     is_radical := r; implicit_hydrogens := implicit_hydrogens a;
     stereo := stereo a; xy := xy a |}.

Definition write_atom (l : loc) (f : Atom → Atom) : M unit :=
  h ← get_heap;
  put_heap {| atom_obj := <[l := f (atom_at h l)]> (atom_obj h); bond_obj := bond_obj h |}.

(** ** The graph library

    The routines of [MoleculeContainer] that [_patcher] calls are not part
    of the reactor; they are parameters of the embedding. A routine sees
    the store and the tables of the graph it is called on. *)
Record Externals := mkExternals {
  (** [calc_implicit(n)]: the count it stores in atom [n] *)
  calc_implicit : Heap → Graph → Z → option Z;
  calc_labels : Heap → Graph → Heap;
  stereogenic_tetrahedrons : Heap → Graph → gmap Z (list Z);
  stereogenic_allenes : Heap → Graph → gmap Z (list Z);
  stereogenic_cis_trans : Heap → Graph → gmap (Z * Z) (list Z);
  _stereo_cis_trans_terminals : Heap → Graph → gmap Z (Z * Z);
  _translate_tetrahedron_sign : Heap → Graph → Z → list Z → option bool → option bool;
  _translate_allene_sign : Heap → Graph → Z → list Z → option bool → option bool;
  _translate_cis_trans_sign : Heap → Graph → Z * Z → list Z → option bool → option bool;
  kekule : Heap → Graph → Heap;
  thiele : Heap → Graph → bool → Heap * bool;
  fix_stereo : Heap → Graph → Heap
}.

(** [Element.copy(hydrogens=.., stereo=..)]: a new object that keeps the
    element, isotope, charge, radical state and coordinates; the hydrogen
    count and the stereo label are kept only on request (line 145 asks
    for both, line 89 for neither) *)
Definition copy (hydrogens stereo_ : bool) (a : Atom) : Atom :=
  {| atomic_number := atomic_number a; isotope := isotope a; charge := charge a;
     is_radical := is_radical a;
     implicit_hydrogens := if hydrogens then implicit_hydrogens a else None;
     stereo := if stereo_ then stereo a else None;
     xy := xy a |}.

(** [Bond.copy(stereo=..)] *)
Definition bcopy (stereo_ : bool) (b : Bond) : Bond :=
  {| order := order b; bstereo := if stereo_ then bstereo b else None |}.

(** [Element.from_atomic_number(z)(isotope, charge=.., is_radical=..)] *)
Definition element (z : Z) (iso : option Z) (c : Z) (r : bool) : Atom :=
  {| atomic_number := z; isotope := iso; charge := c; is_radical := r;
     implicit_hydrogens := None; stereo := None; xy := origin |}.

(** [int(rb)] for a bond with one order, the only kind that the
    constructor admits in a query replacement *)
Definition int_of_bond (rb : TBond) : Z := hd 0 (tb_order rb).

(** the local variables of [_patcher] *)
Record Locals := mkLocals {
  natoms : list (Z * loc);
  nbonds : list (Z * list (Z * loc));
  max_atom : Z;
  stereo_atoms : list Z;
  stereo_bonds : list (Z * Z)
}.

(** lines 77-82: the empty graph, no mark *)
Definition init_locals (max_atom : Z) : Locals :=
  {| natoms := []; nbonds := []; max_atom := max_atom;
     stereo_atoms := []; stereo_bonds := [] |}.

Definition new_graph (st : Locals) : Graph :=
  {| _atoms := natoms st; _bonds := nbonds st |}.

(** [natoms[m] = a; nbonds[m] = {}] (lines 123-124) *)
Definition store_atom (m : Z) (a : Atom) (st : Locals) : M Locals :=
  l ← new_atom a;
  mret {| natoms := Dict.set m l (natoms st); nbonds := Dict.set m [] (nbonds st);
          max_atom := max_atom st; stereo_atoms := stereo_atoms st;
          stereo_bonds := stereo_bonds st |}.

(** [stereo_atoms.append(m)] *)
Definition mark_atom (m : Z) (st : Locals) : Locals :=
  {| natoms := natoms st; nbonds := nbonds st; max_atom := max_atom st;
     stereo_atoms := stereo_atoms st ++ [m]; stereo_bonds := stereo_bonds st |}.

(** [stereo_bonds.append((n, m))] *)
Definition mark_bond (n m : Z) (st : Locals) : Locals :=
  {| natoms := natoms st; nbonds := nbonds st; max_atom := max_atom st;
     stereo_atoms := stereo_atoms st; stereo_bonds := stereo_bonds st ++ [(n, m)] |}.

(** [max_atom += 1] *)
Definition bump (st : Locals) : Locals :=
  {| natoms := natoms st; nbonds := nbonds st; max_atom := max_atom st + 1;
     stereo_atoms := stereo_atoms st; stereo_bonds := stereo_bonds st |}.

(** the truth value of [m := mapping.get(n)]: a missing entry and 0 are false *)
Definition truthy (m : option Z) : option Z :=
  match m with
  | Some m => if decide (m = 0) then None else Some m
  | None => None
  end.

(** the stereo of a matched atom (lines 92-95 and 119-122) *)
Definition matched_stereo (m : Z) (rs : option bool) (sa a : Atom) (st : Locals)
    : Atom * Locals :=
  match rs with
  | Some _ => (set_stereo rs a, st)
  | None =>
      match stereo sa with
      | Some _ => (a, mark_atom m st)
      | None => (a, st)
      end
  end.

(** one turn of the loop of lines 84-124 *)
Definition patch_atom (atoms : list (Z * loc)) (n : Z) (ra : TAtom) (st : Locals)
    : M Locals :=
  match ra with
  | AnyElement rc rr rs =>
      om ← mapping_get n;
      match truthy om with
      | Some m =>
          l ← lift (subscript atoms m);
          sa ← read_atom l;
          let a := set_charge rc rr (copy false false sa) in
          let '(a, st) := matched_stereo m rs sa a st in
          store_atom m a st
      | None => raise UnmatchedAnyElement
      end
  | QueryElement z iso rc rr rs hs =>
      let a := element z iso rc rr in
      om ← mapping_get n;
      match truthy om with
      | None =>
          let m := max_atom st + 1 in
          let st := bump st in
          mapping_set n m;;
          let a := set_stereo rs a in
          match hs with
          | [h] => store_atom m (set_hydrogens (Some h) a) st
          | [] => store_atom m a st
          | _ => raise AmbiguousHydrogenCount
          end
      | Some m =>
          l ← lift (subscript atoms m);
          sa ← read_atom l;
          let a := set_xy (xy sa) a in
          let '(a, st) := matched_stereo m rs sa a st in
          store_atom m a st
      end
  | Element z iso rc rr rs h c =>
      let a := element z iso rc rr in
      om ← mapping_get n;
      match truthy om with
      | None =>
          let m := max_atom st + 1 in
          let st := bump st in
          mapping_set n m;;
          let a := set_stereo rs a in
          store_atom m (set_xy c (set_hydrogens h a)) st
      | Some m =>
          l ← lift (subscript atoms m);
          sa ← read_atom l;
          let a := set_xy (xy sa) a in
          let '(a, st) := matched_stereo m rs sa a st in
          store_atom m a st
      end
  end.

(** lines 84-124 *)
Definition patch_atoms (atoms : list (Z * loc)) (rep : Replacement) (st : Locals)
    : M Locals :=
  for_ (r_atoms rep) (λ '(n, ra) st, patch_atom atoms n ra st) st.

Definition set_bstereo (s : option bool) (b : Bond) : Bond :=
  {| order := order b; bstereo := s |}.

Definition write_bond (l : loc) (f : Bond → Bond) : M unit :=
  h ← get_heap;
  put_heap {| atom_obj := atom_obj h; bond_obj := <[l := f (bond_at h l)]> (bond_obj h) |}.

(** [nbonds[n][m] = b] *)
Definition set_bond (n m : Z) (l : loc) (st : Locals) : M Locals :=
  row ← lift (subscript (nbonds st) n);
  mret {| natoms := natoms st; nbonds := Dict.set n (Dict.set m l row) (nbonds st);
          max_atom := max_atom st; stereo_atoms := stereo_atoms st;
          stereo_bonds := stereo_bonds st |}.

(** [nbonds[n][m] = nbonds[m][n]] (lines 132 and 156) *)
Definition back_link (n m : Z) (st : Locals) : M Locals :=
  row ← lift (subscript (nbonds st) m);
  l ← lift (subscript row n);
  set_bond n m l st.

(** the stereo of the host bond between [n] and [m], when there is one
    (line 137) *)
Definition host_bond_stereo (bonds : list (Z * list (Z * loc))) (n m : Z) : M (option bool) :=
  match Dict.get bonds n with
  | None => mret None
  | Some sbn =>
      match Dict.get sbn m with
      | None => mret None
      | Some l => sb ← read_bond l; mret (bstereo sb)
      end
  end.

(** one turn of the inner loop of lines 129-140; [n] is already mapped *)
Definition patch_bond (bonds : list (Z * list (Z * loc))) (n m : Z) (rb : TBond)
    (st : Locals) : M Locals :=
  m ← mapping_subscript m;
  row ← lift (subscript (nbonds st) m);
  if Dict.mem n row then back_link n m st
  else
    l ← new_bond {| order := int_of_bond rb; bstereo := None |};
    st ← set_bond n m l st;
    match tb_stereo rb with
    | Some s => write_bond l (set_bstereo (Some s));; mret st
    | None =>
        s ← host_bond_stereo bonds n m;
        match s with
        | None => mret st
        | Some _ => mret (mark_bond n m st)
        end
    end.

(** lines 127-140 *)
Definition patch_bonds (bonds : list (Z * list (Z * loc))) (rep : Replacement)
    (st : Locals) : M Locals :=
  for_ (r_bonds rep)
    (λ '(n, bs) st,
       n ← mapping_subscript n;
       for_ bs (λ '(m, rb) st, patch_bond bonds n m rb st) st)
    st.

(** lines 143-146 *)
Definition carry_atoms (atoms : list (Z * loc)) (patched_atoms to_delete : gset Z)
    (st : Locals) : M Locals :=
  for_ atoms
    (λ '(n, l) st,
       if decide (n ∉ patched_atoms ∧ n ∉ to_delete) then
         a ← read_atom l;
         store_atom n (copy true true a) st
       else mret st)
    st.

(** one turn of the inner loop of lines 151-163 *)
Definition carry_bond (patched_atoms to_delete : gset Z) (n m : Z) (l : loc)
    (st : Locals) : M Locals :=
  if decide (m ∈ to_delete ∨ (n ∈ patched_atoms ∧ m ∈ patched_atoms)) then mret st
  else
    row ← lift (subscript (nbonds st) m);
    if Dict.mem n row then back_link n m st
    else
      b ← read_bond l;
      if decide (is_Some (bstereo b) ∧ (n ∈ patched_atoms ∨ m ∈ patched_atoms)) then
        l' ← new_bond (bcopy false b);
        st ← set_bond n m l' st;
        mret (mark_bond n m st)
      else
        l' ← new_bond (bcopy true b);
        set_bond n m l' st.

(** lines 148-163 *)
Definition carry_bonds (bonds : list (Z * list (Z * loc))) (patched_atoms to_delete : gset Z)
    (st : Locals) : M Locals :=
  for_ bonds
    (λ '(n, bs) st,
       if decide (n ∈ to_delete) then mret st
       else for_ bs (λ '(m, l) st, carry_bond patched_atoms to_delete n m l st) st)
    st.

(** [d[k]] for a table of the graph library *)
Definition index {K} `{Countable K} {V} (d : gmap K V) (k : K) : M V :=
  lift (match d !! k with Some v => Ok v | None => Err KeyError end).

(** [max(atoms)] *)
Definition max_key (atoms : list (Z * loc)) : result Z :=
  match Dict.keys atoms with
  | [] => Err EmptyMax
  | k :: ks => Ok (foldl Z.max k ks)
  end.

Definition get_mapping : M (gmap Z Z) := λ σ, (Ok (mapping σ), σ).

Section patcher.
Variable E : Externals.
Variable set_iter : gset Z → list Z.

(** lines 165-168 *)
Definition post_assembly (new : Graph) : M unit :=
  for_ (_atoms new)
    (λ '(n, l) _,
       a ← read_atom l;
       match implicit_hydrogens a with
       | None =>
           call (CalcImplicit n);;
           h ← get_heap;
           write_atom l (set_hydrogens (calc_implicit E h new n))
       | Some _ => mret ()
       end)
    ();;
  call CalcLabels;;
  h ← get_heap;
  put_heap (calc_labels E h new).

(** one turn of the loop of lines 171-184 *)
Definition translate_atom (structure new : Graph) (n : Z) : M unit :=
  h ← get_heap;
  if decide (is_Some (stereogenic_tetrahedrons E h new !! n)) then
    row ← lift (subscript (_bonds structure) n);
    nrow ← lift (subscript (_bonds new) n);
    if decide (Dict.dom row ≠ Dict.dom nrow) then mret ()
    else
      env ← index (stereogenic_tetrahedrons E h structure) n;
      l ← lift (subscript (_atoms structure) n);
      sa ← read_atom l;
      let s := _translate_tetrahedron_sign E h new n env (stereo sa) in
      nl ← lift (subscript (_atoms new) n);
      write_atom nl (set_stereo s)
  else if decide (is_Some (stereogenic_allenes E h new !! n)) then
    nt ← index (stereogenic_allenes E h new) n;
    t ← index (stereogenic_allenes E h structure) n;
    if decide ((list_to_set nt : gset Z) ≠ list_to_set t) then mret ()
    else
      t ← index (stereogenic_allenes E h structure) n;
      l ← lift (subscript (_atoms structure) n);
      sa ← read_atom l;
      let s := _translate_allene_sign E h new n (take 2 t) (stereo sa) in
      nl ← lift (subscript (_atoms new) n);
      write_atom nl (set_stereo s)
  else mret ().

(** one turn of the loop of lines 186-191. [get(n, True)] and
    [get(m, False)] are equal only when both terminals are there and
    equal. The value of [_translate_cis_trans_sign] is not used. *)
Definition translate_bond (structure new : Graph) (nm : Z * Z) : M unit :=
  h ← get_heap;
  let terminals := _stereo_cis_trans_terminals E h new in
  match terminals !! nm.1, terminals !! nm.2 with
  | Some t12, Some t12' =>
      if decide (t12 = t12') then
        nt ← index (stereogenic_cis_trans E h new) t12;
        t ← index (stereogenic_cis_trans E h structure) t12;
        if decide ((list_to_set nt : gset Z) ≠ list_to_set t) then mret ()
        else
          t ← index (stereogenic_cis_trans E h structure) t12;
          row ← lift (subscript (_bonds structure) nm.1);
          l ← lift (subscript row nm.2);
          sb ← read_bond l;
          let _ := _translate_cis_trans_sign E h new t12 (take 2 t) (bstereo sb) in
          mret ()
      else mret ()
  | _, _ => mret ()
  end.

(** lines 170-191 *)
Definition translate_stereo (structure new : Graph) (marked_atoms : list Z)
    (marked_bonds : list (Z * Z)) : M unit :=
  for_ marked_atoms (λ n _, translate_atom structure new n) ();;
  for_ marked_bonds (λ nm _, translate_bond structure new nm) ().

(** lines 193-198 *)
Definition finalize (self : Reactor) (new : Graph) : M unit :=
  if _fix_rings self then
    call Kekule;;
    h ← get_heap;
    put_heap (kekule E h new);;
    call (Thiele (_fix_tautomers self));;
    h ← get_heap;
    let '(h', aromatized) := thiele E h new (_fix_tautomers self) in
    put_heap h';;
    if negb aromatized then
      call FixStereo;;
      h ← get_heap;
      put_heap (fix_stereo E h new)
    else mret ()
  else
    call FixStereo;;
    h ← get_heap;
    put_heap (fix_stereo E h new).

(** lines 72-163: the tables of the new graph and the marks *)
Definition assemble (self : Reactor) (structure : Graph) : M (Locals * gset Z) :=
  let atoms := _atoms structure in
  let bonds := _bonds structure in
  mapping ← get_mapping;
  to_delete ← lift (_get_deleted set_iter self structure mapping);
  max_atom ← lift (max_key atoms);
  st ← patch_atoms atoms (_replacement self) (init_locals max_atom);
  st ← patch_bonds bonds (_replacement self) st;
  let patched_atoms := Dict.dom (natoms st) in
  st ← carry_atoms atoms patched_atoms to_delete st;
  st ← carry_bonds bonds patched_atoms to_delete st;
  mret (st, to_delete).

(** [BaseReactor._patcher] *)
Definition _patcher (self : Reactor) (structure : Graph) : M Graph :=
  '(st, _) ← assemble self structure;
  let new := new_graph st in
  post_assembly new;;
  translate_stereo structure new (stereo_atoms st) (stereo_bonds st);;
  finalize self new;;
  mret new.
End patcher.

(** ** Examples *)

(** a graph library that leaves the graph as it is; [thiele] reports
    [aromatized], every double bond system has the terminals 3 and 4 *)
Definition plain_externals (aromatized : bool) : Externals :=
  {| calc_implicit := λ _ _ _, Some 0;
     calc_labels := λ h _, h;
     stereogenic_tetrahedrons := λ _ _, ∅;
     stereogenic_allenes := λ _ _, ∅;
     stereogenic_cis_trans := λ _ _, {[ (3, 4) := [3; 4] ]};
     _stereo_cis_trans_terminals := λ _ _, {[ 1 := (3, 4); 2 := (3, 4) ]};
     _translate_tetrahedron_sign := λ _ _ _ _ s, s;
     _translate_allene_sign := λ _ _ _ _ s, s;
     _translate_cis_trans_sign := λ _ _ _ _ s, s;
     kekule := λ h _, h;
     thiele := λ h _ _, (h, aromatized);
     fix_stereo := λ h _, h |}.

Definition empty_state : State :=
  {| heap := {| atom_obj := ∅; bond_obj := ∅ |}; mapping := ∅; calls := [] |}.

Definition ring_fixer : Reactor :=
  {| _to_delete := ∅;
     _replacement := {| r_is_query := true; r_atoms := []; r_bonds := [] |};
     _fix_rings := true; _fix_tautomers := true |}.

(** the finalization as the specification words it: with [fix_rings],
    [fix_stereo] is called exactly when [thiele] reports a change *)
Definition finalize_as_specified (E : Externals) (self : Reactor) (new : Graph) (σ : State)
    : Prop :=
  let σ' := (finalize E self new σ).2 in
  if _fix_rings self then
    let h1 := kekule E (heap σ) new in
    take 2 (drop (length (calls σ)) (calls σ')) = [Kekule; Thiele (_fix_tautomers self)] ∧
    (FixStereo ∈ drop (length (calls σ)) (calls σ') ↔
     (thiele E h1 new (_fix_tautomers self)).2 = true)
  else drop (length (calls σ)) (calls σ') = [FixStereo].

(** unfold the monad of [_patcher] *)
Ltac unfold_M :=
  unfold mbind, M_bind, bind, mret, M_ret, ret, raise, lift, call, get_heap, put_heap,
    get_mapping, mapping_get, mapping_set, mapping_subscript, read_atom, read_bond in *.

(** 1,2-difluoroethene F-C=C-F with a cis/trans label on the double
    bond: carbons 1 and 2, fluorines 3 and 4 *)
Definition carbon : Atom :=
  {| atomic_number := 6; isotope := None; charge := 0; is_radical := false;
     implicit_hydrogens := Some 1; stereo := None; xy := origin |}.

Definition fluorine : Atom :=
  {| atomic_number := 9; isotope := None; charge := 0; is_radical := false;
     implicit_hydrogens := Some 0; stereo := None; xy := origin |}.

Definition difluoroethene_heap : Heap :=
  {| atom_obj := {[ 1%positive := carbon; 2%positive := carbon;
                    3%positive := fluorine; 4%positive := fluorine ]};
     bond_obj := {[ 1%positive := mkBond 2 (Some true); 2%positive := mkBond 1 None;
                    3%positive := mkBond 1 None ]} |}.

Definition difluoroethene : Graph :=
  {| _atoms := [(1, 1%positive); (2, 2%positive); (3, 3%positive); (4, 4%positive)];
     _bonds := [(1, [(2, 1%positive); (3, 2%positive)]);
                (2, [(1, 1%positive); (4, 3%positive)]);
                (3, [(1, 2%positive)]); (4, [(2, 3%positive)])] |}.

(** the graph library on this molecule: the double bond system has the
    terminals 3 and 4 before and after the patch, a carbon has one
    hydrogen, a sign is translated to itself *)
Definition ethene_externals : Externals :=
  {| calc_implicit := λ _ _ _, Some 1;
     calc_labels := λ h _, h;
     stereogenic_tetrahedrons := λ _ _, ∅;
     stereogenic_allenes := λ _ _, ∅;
     stereogenic_cis_trans := λ _ _, {[ (3, 4) := [3; 4] ]};
     _stereo_cis_trans_terminals := λ _ _, {[ 1 := (3, 4); 2 := (3, 4) ]};
     _translate_tetrahedron_sign := λ _ _ _ _ s, s;
     _translate_allene_sign := λ _ _ _ _ s, s;
     _translate_cis_trans_sign := λ _ _ _ _ s, s;
     kekule := λ h _, h;
     thiele := λ h _ _, (h, false);
     fix_stereo := λ h _, h |}.

(** the pattern is one carbon (atom 10), the replacement is that carbon
    again: nothing is changed, nothing is deleted *)
Definition same_carbon : Reactor :=
  {| _to_delete := ∅;
     _replacement :=
       {| r_is_query := false;
          r_atoms := [(10, Element 6 None 0 false None (Some 1) origin)];
          r_bonds := [(10, [])] |};
     _fix_rings := false;
     _fix_tautomers := false |}.

Definition difluoroethene_state : State :=
  {| heap := difluoroethene_heap; mapping := {[10 := 1]}; calls := [] |}.

(** the object of the bond between [n] and [m] *)
Definition bond_between (h : Heap) (g : Graph) (n m : Z) : option Bond :=
  row ← Dict.get (_bonds g) n; l ← Dict.get row m; Some (bond_at h l).

Definition atom_of (h : Heap) (g : Graph) (n : Z) : option Atom :=
  l ← Dict.get (_atoms g) n; Some (atom_at h l).

(** ** The caller's mapping *)

(** a replacement atom gets a new identifier: it is no [AnyElement] and
    [mapping.get(n)] is false *)
Definition allocates (ra : TAtom) (om : option Z) : bool :=
  match ra with
  | AnyElement _ _ _ => false
  | _ => match truthy om with None => true | Some _ => false end
  end.

(** what the turn for the atom [nra] does to [mapping] and [max_atom] *)
Definition alloc_step (acc : gmap Z Z * Z) (nra : Z * TAtom) : gmap Z Z * Z :=
  if allocates nra.2 (acc.1 !! nra.1)
  then (<[nra.1 := acc.2 + 1]> acc.1, acc.2 + 1)
  else acc.

(** a host of one carbon, and a replacement that adds a nitrogen (atom
    20) and then names an [AnyElement] (atom 30) the mapping lacks *)
Definition methane_heap : Heap :=
  {| atom_obj := {[ 1%positive := carbon ]}; bond_obj := ∅ |}.

Definition methane : Graph := {| _atoms := [(1, 1%positive)]; _bonds := [(1, [])] |}.


Definition methane_state : State :=
  {| heap := methane_heap; mapping := ∅; calls := [] |}.

(** ** What a turn of the atom loop stores *)

Definition t_stereo (ra : TAtom) : option bool :=
  match ra with
  | AnyElement _ _ rs | QueryElement _ _ _ _ rs _ | Element _ _ _ _ rs _ _ => rs
  end.

Definition is_any (ra : TAtom) : bool :=
  match ra with AnyElement _ _ _ => true | _ => false end.

(** the object stored for a replacement atom matched with the host atom [sa] *)
Definition matched_atom (ra : TAtom) (sa : Atom) : Atom :=
  match ra with
  | AnyElement rc rr rs => set_stereo rs (set_charge rc rr (copy false false sa))
  | QueryElement z iso rc rr rs _ | Element z iso rc rr rs _ _ =>
      set_stereo rs (set_xy (xy sa) (element z iso rc rr))
  end.

(** the object stored for a replacement atom that gets a new identifier *)
Definition fresh_atom (ra : TAtom) : Atom :=
  match ra with
  | AnyElement _ _ _ => no_atom
  | QueryElement z iso rc rr rs hs =>
      match hs with
      | [h] => set_hydrogens (Some h) (set_stereo rs (element z iso rc rr))
      | _ => set_stereo rs (element z iso rc rr)
      end
  | Element z iso rc rr rs h c =>
      set_xy c (set_hydrogens h (set_stereo rs (element z iso rc rr)))
  end.

(** the marks after the turn of a matched atom *)
Definition marks_after (ra : TAtom) (sa : Atom) (m : Z) (marks : list Z) : list Z :=
  match t_stereo ra, stereo sa with
  | None, Some _ => marks ++ [m]
  | _, _ => marks
  end.

(** the store after [l] was allocated for the atom [a] *)
Definition with_atom (σ : State) (l : loc) (a : Atom) : State :=
  {| heap := {| atom_obj := <[l := a]> (atom_obj (heap σ)); bond_obj := bond_obj (heap σ) |};
     mapping := mapping σ; calls := calls σ |}.

(** the identifiers allocated while [max_atom] went from [a] to [b] *)
Definition fresh_ids (a b : Z) : gset Z := list_to_set (seqZ (a + 1) (b - a)).

(** the outcome of a computation satisfies [Q] when it returns and [R]
    when it raises *)
Definition outcome {A} (x : result A * State) (Q : A → State → Prop) (R : State → Prop)
    : Prop :=
  match x with
  | (Ok a, σ') => Q a σ'
  | (Err _, σ') => R σ'
  end.

(** ** The store during assembly *)

(** every object of [σ] is in [σ'], unchanged; no routine was called *)
Definition extends (σ σ' : State) : Prop :=
  atom_obj (heap σ) ⊆ atom_obj (heap σ') ∧
  bond_obj (heap σ) ⊆ bond_obj (heap σ') ∧
  calls σ' = calls σ.

(** the tables of the new graph hold no object of the store [h0] *)
Definition fresh_tables (h0 : Heap) (st : Locals) : Prop :=
  (∀ n l, (n, l) ∈ natoms st → l ∉ dom (atom_obj h0)) ∧
  (∀ n row m l, (n, row) ∈ nbonds st → (m, l) ∈ row → l ∉ dom (bond_obj h0)).

(** a turn of a bond loop: the atoms, the marks of atoms and the mapping
    stay, the rows of [nbonds] keep their keys *)
Definition bond_turn (st : Locals) (σ : State) (st' : Locals) (σ' : State) : Prop :=
  natoms st' = natoms st ∧ max_atom st' = max_atom st ∧
  stereo_atoms st' = stereo_atoms st ∧
  Dict.dom (nbonds st') = Dict.dom (nbonds st) ∧
  atom_obj (heap σ') = atom_obj (heap σ) ∧ mapping σ' = mapping σ.

(** ** Small inputs for the constructor *)

Definition query_with_element : Replacement :=
  {| r_is_query := true;
     r_atoms := [(1, AnyElement 0 false None);
                 (2, Element 6 None 0 false None (Some 3) origin)];
     r_bonds := [(1, [(2, mkTBond [1; 2] None)]); (2, [(1, mkTBond [1; 2] None)])] |}.

Definition amine_link : Replacement :=
  {| r_is_query := true;
     r_atoms := [(1, AnyElement 0 false None); (3, AnyElement 0 false None)];
     r_bonds := [(1, [(3, mkTBond [1] None)]); (3, [(1, mkTBond [1] None)])] |}.



(** a chain 1 - 2 - 3 and a reactor that deletes the pattern atom 20 *)
Definition chain3 : Graph :=
  {| _atoms := [(1, 1%positive); (2, 2%positive); (3, 3%positive)];
     _bonds := [(1, [(2, 1%positive)]); (2, [(1, 1%positive); (3, 2%positive)]);
                (3, [(2, 2%positive)])] |}.

Definition delete_20 : Reactor :=
  {| _to_delete := {[20]};
     _replacement := {| r_is_query := false; r_atoms := []; r_bonds := [] |};
     _fix_rings := false; _fix_tautomers := false |}.



(** ** Relations kept by every run *)

(** every run of [m], returning or raising, relates the state before to
    the state after *)
Definition preserves {A} (R : relation State) (m : M A) : Prop := ∀ σ, R σ (m σ).2.

Definition same_mapping : relation State := λ σ σ', mapping σ' = mapping σ.

(** the mapping [mp'] differs from [mp] only at keys of [ks] that had no
    true entry, and gives them values above [mx] *)
Definition mapping_grows (mx : Z) (ks : list Z) (mp mp' : gmap Z Z) : Prop :=
  ∀ k, mp' !! k = mp !! k ∨
       (truthy (mp !! k) = None ∧ k ∈ ks ∧ ∃ m, mp' !! k = Some m ∧ mx < m).







(** a replacement that adds one nitrogen with two hydrogens *)
Definition add_nitrogen : Replacement :=
  {| r_is_query := false;
     r_atoms := [(20, Element 7 None 0 false None (Some 2) origin)];
     r_bonds := [(20, [])] |}.

(** ** Shared bond objects *)

(** [nbonds[n][m]], when both the row and the cell are there *)
Definition cell (nb : list (Z * list (Z * loc))) (n m : Z) : option loc :=
  row ← Dict.get nb n; Dict.get row m.

(** where a bond is recorded at both of its ends, the two cells hold one
    object *)
Definition shared_bonds (nb : list (Z * list (Z * loc))) : Prop :=
  ∀ n m l l', cell nb n m = Some l → cell nb m n = Some l' → l = l'.

(** ** The calls to the graph library *)

Definition same_calls : relation State := λ σ σ', calls σ' = calls σ.

(** the calls of lines 193-198 *)
Definition finalizer_calls (self : Reactor) (aromatized : bool) : list ExtCall :=
  if _fix_rings self then
    Kekule :: Thiele (_fix_tautomers self) :: (if aromatized then [] else [FixStereo])
  else [FixStereo].

(** ** What the translation of stereo labels writes *)

(** from [σ] to [σ'] nothing changed but the stereo label of atoms whose
    reference satisfies [P] *)
Definition stereo_only (P : loc → Prop) : relation State := λ σ σ',
  bond_obj (heap σ') = bond_obj (heap σ) ∧ mapping σ' = mapping σ ∧
  calls σ' = calls σ ∧
  ∀ l, (∃ s, atom_at (heap σ') l = set_stereo s (atom_at (heap σ) l)) ∧
       (¬ P l → atom_at (heap σ') l = atom_at (heap σ) l).

(** ** When the loop over the replacement atoms returns *)

(** the turn for the replacement atom [nra] raises nothing: a mapped atom
    is an atom of the host; an unmapped one is not an [AnyElement], and
    as a [QueryElement] has at most one hydrogen count *)
Definition accepted (atoms : list (Z * loc)) (mp : gmap Z Z) (nra : Z * TAtom) : Prop :=
  match truthy (mp !! nra.1) with
  | Some m => m ∈ Dict.dom atoms
  | None =>
      match nra.2 with
      | AnyElement _ _ _ => False
      | QueryElement _ _ _ _ _ hs => (length hs ≤ 1)%nat
      | Element _ _ _ _ _ _ _ => True
      end
  end.

(** ** Bonds join atoms of the new graph *)

(** the two tables have the same keys, and every neighbour recorded in a
    row is one of them *)
Definition tables_closed (st : Locals) : Prop :=
  Dict.dom (natoms st) = Dict.dom (nbonds st) ∧
  ∀ n m l, cell (nbonds st) n m = Some l → m ∈ Dict.dom (nbonds st).

(** ** A core of two bonded atoms

    The chain 1 - 2 - 3 - 4 with the atom 5 on 3 and the atom 6 on 2; the
    bonds were added in the order 1-2, 2-3, 3-4, 3-5, 2-6, which gives
    the rows their order. The pattern atoms 20 and 30 (the host atoms 2
    and 3) are to delete, 1 and 4 are kept. *)
Definition two_dangling : Graph :=
  {| _atoms := [(1, 1%positive); (2, 2%positive); (3, 3%positive); (4, 4%positive);
                (5, 5%positive); (6, 6%positive)];
     _bonds := [(1, [(2, 1%positive)]);
                (2, [(1, 1%positive); (3, 2%positive); (6, 5%positive)]);
                (3, [(2, 2%positive); (4, 3%positive); (5, 4%positive)]);
                (4, [(3, 3%positive)]);
                (5, [(3, 4%positive)]);
                (6, [(2, 5%positive)])] |}.

Definition bridge_reactor : Reactor :=
  {| _to_delete := {[20; 30]};
     _replacement :=
       {| r_is_query := true;
          r_atoms := [(10, AnyElement 0 false None); (40, AnyElement 0 false None)];
          r_bonds := [(10, [(40, mkTBond [1] None)]); (40, [(10, mkTBond [1] None)])] |};
     _fix_rings := false;
     _fix_tautomers := false |}.

Definition bridge_mapping : gmap Z Z := {[10 := 1; 20 := 2; 30 := 3; 40 := 4]}.

(** * Properties *)

(** ** The walk of [_get_deleted] *)

Section walk_facts.
Variable bonds : list (Z * list (Z * loc)).
Variables to_delete remain : gset Z.

Local Abbreviation walk := (walk bonds to_delete remain).

Lemma walk_unfold fa fb stack seen g :
  walk fa fb stack seen g =
  match stack with
  | [] => Ok (Exhausted seen g)
  | current :: stack =>
      if decide (current ∈ remain) then Ok (Reached g)
      else if decide (current ∈ to_delete) then
        match fb with
        | O => Err LoopFuel
        | S fb => walk fa fb stack seen g
        end
      else
        match Dict.get bonds current with
        | None => Err KeyError
        | Some row =>
            let seen' := {[current]} ∪ seen in
            let g' := {[current]} ∪ g in
            let stack' := push row g' stack in
            if decide (current ∈ g) then
              match fb with
              | O => Err LoopFuel
              | S fb => walk fa fb stack' seen' g'
              end
            else
              match fa with
              | O => Err LoopFuel
              | S fa => walk fa (S ((max_degree bonds + 2) * length stack')) stack' seen' g'
              end
        end
  end.
Proof. destruct fa, fb; reflexivity. Qed.

Local Abbreviation weight := (weight bonds).

Lemma weight_bound g stack : (weight g stack ≤ (max_degree bonds + 2) * length stack)%nat.
Proof.
  induction stack as [|x stack IH]; simpl; [lia|].
  case_decide; lia.
Qed.

Lemma weight_app g s1 s2 : weight g (s1 ++ s2) = (weight g s1 + weight g s2)%nat.
Proof. induction s1 as [|x s1 IH]; simpl; [done|]. rewrite IH. lia. Qed.

Lemma weight_fresh g s : Forall (λ x, x ∉ g) s → weight g s = length s.
Proof.
  induction 1 as [|x s Hx _ IH]; [done|].
  simpl. rewrite decide_False by done. by rewrite IH.
Qed.

Lemma row_degree n row : Dict.get bonds n = Some row → (length row ≤ max_degree bonds)%nat.
Proof.
  unfold max_degree. induction bonds as [|[k r] b IH]; simpl; [done|].
  case_decide; intros ?; simplify_eq; [lia|]. specialize (IH H0). lia.
Qed.

Lemma row_neighbours n row x :
  Dict.get bonds n = Some row → x ∈ Dict.keys row → x ∈ all_neighbours bonds.
Proof.
  unfold all_neighbours. induction bonds as [|[k r] b IH]; simpl; [done|].
  case_decide; intros ? Hx; simplify_eq; rewrite elem_of_app; [by left|right; eauto].
Qed.

Lemma push_length row g stack :
  (length (push row g stack) ≤ length row + length stack)%nat.
Proof.
  unfold push, Dict.keys. rewrite length_app, length_reverse.
  pose proof (length_filter (λ x, x ∉ g) (row.*1)) as H. rewrite length_fmap in H. lia.
Qed.

Local Abbreviation U := (list_to_set (all_neighbours bonds) : gset Z).

Lemma walk_total fa : ∀ fb stack seen g,
  (size (U ∖ g) < fa)%nat → (weight g stack < fb)%nat → Forall (λ x, x ∈ U) stack →
  walk fa fb stack seen g ≠ Err LoopFuel.
Proof.
  induction fa as [|fa IHa]; [lia|].
  induction fb as [|fb IHb]; [lia|].
  intros stack seen g Ha Hb HU. rewrite walk_unfold.
  destruct stack as [|c stack]; [done|].
  apply Forall_cons in HU as [Hc HU].
  assert (weight g (c :: stack) = ((if decide (c ∈ g) then max_degree bonds + 2 else 1) + weight g stack)%nat)
    as Hw by done.
  destruct (decide (c ∈ remain)); [done|]. destruct (decide (c ∈ to_delete)).
  { apply IHb; [done| |done]. rewrite Hw in Hb. case_decide; lia. }
  destruct (Dict.get bonds c) as [row|] eqn:Hrow; [|done]. simpl.
  assert (Forall (λ x, x ∈ U) (push row ({[c]} ∪ g) stack)) as HU'.
  { unfold push. apply Forall_app; split; [|done].
    apply Forall_forall. intros x Hx. rewrite elem_of_reverse in Hx.
    apply list_elem_of_filter in Hx as [_ Hx]. apply elem_of_list_to_set. by eapply row_neighbours. }
  destruct (decide (c ∈ g)) as [Hg|Hg].
  - assert ({[c]} ∪ g = g) as -> by set_solver.
    apply IHb; [done| |by replace g with ({[c]} ∪ g) by set_solver].
    rewrite Hw in Hb.
    unfold push. rewrite weight_app, weight_fresh.
    + rewrite length_reverse. pose proof (row_degree _ _ Hrow).
      pose proof (length_filter (λ x, x ∉ g) (Dict.keys row)) as Hf.
      unfold Dict.keys in Hf at 2. rewrite length_fmap in Hf. lia.
    + apply Forall_forall. intros x Hx. rewrite elem_of_reverse in Hx.
      by apply list_elem_of_filter in Hx as [? _].
  - apply IHa; [| |done].
    + assert (U ∖ g = {[c]} ∪ U ∖ ({[c]} ∪ g)) as Heq.
      { apply set_eq. intros x. destruct (decide (x = c)); set_solver. }
      rewrite Heq, size_union, size_singleton in Ha by set_solver. lia.
    + pose proof (weight_bound ({[c]} ∪ g) (push row ({[c]} ∪ g) stack)). lia.
Qed.
(** what a walk started with [global_seen = gb] guarantees *)
Lemma walk_post gb fa : ∀ fb stack seen g r,
  walk fa fb stack seen g = Ok r →
  seen ∪ gb = g → seen ## gb → seen ## remain →
  Forall (λ x, x ∉ gb ∧ x ∈ U) stack →
  match r with
  | Reached g' => g ⊆ g' ∧ (g' ∖ gb) ## remain ∧ g' ⊆ g ∪ U
  | Exhausted seen' g' =>
      seen' ∪ gb = g' ∧ seen' ## gb ∧ seen' ## remain ∧ seen ⊆ seen' ∧ seen' ⊆ seen ∪ U
  end.
Proof.
  induction fa as [|fa IHa].
  all: induction fb as [|fb IHb].
  all: intros stack seen g r Hr Hg Hgb Hrem Hst; rewrite walk_unfold in Hr.
  all: destruct stack as [|c stack]; [simplify_eq; set_solver|].
  all: apply Forall_cons in Hst as [[Hc1 Hc2] Hst].
  all: destruct (decide (c ∈ remain)); [simplify_eq; set_solver|].
  all: destruct (decide (c ∈ to_delete)); [try done; by eapply IHb|].
  all: destruct (Dict.get bonds c) as [row|] eqn:Hrow; [|done]; cbv zeta in Hr.
  all: assert (Forall (λ x, x ∉ gb ∧ x ∈ U) (push row ({[c]} ∪ g) stack)) as Hst'
    by (unfold push; apply Forall_app; split; [|done];
        apply Forall_forall; intros x Hx; rewrite elem_of_reverse in Hx;
        apply list_elem_of_filter in Hx as [Hx1 Hx2]; split;
        [set_solver|apply elem_of_list_to_set; by eapply row_neighbours]).
  all: destruct (decide (c ∈ g)); try done.
  all: match goal with
       | H : walk _ _ _ _ _ = Ok _ |- _ =>
           first [apply IHb in H|apply IHa in H]; [|set_solver..|done]
       end.
  all: destruct r; set_solver.
Qed.
End walk_facts.

(** ** The branches of a run *)

Section branch_facts.
Variable bonds : list (Z * list (Z * loc)).
Variables to_delete remain : gset Z.
Local Abbreviation U := (list_to_set (all_neighbours bonds) : gset Z).
Local Abbreviation run_branch := (branch bonds to_delete remain).
Local Abbreviation chained := (chained bonds to_delete remain).

Lemma size_neighbours (g : gset Z) : (size (U ∖ g) ≤ length (all_neighbours bonds))%nat.
Proof.
  trans (size U); [apply subseteq_size; set_solver|].
  generalize (all_neighbours bonds). intros l.
  induction l as [|x l IH]; [by rewrite list_to_set_nil, size_empty|].
  rewrite list_to_set_cons, size_union_alt, size_singleton.
  assert (size (list_to_set l ∖ {[x]} : gset Z) ≤ size (list_to_set l : gset Z))%nat
    by (apply subseteq_size; set_solver).
  simpl. lia.
Qed.

Lemma branch_total n g : run_branch n g ≠ Err LoopFuel.
Proof.
  unfold branch, subscript.
  destruct (Dict.get bonds n) as [row|] eqn:Hrow; [|done]. simpl.
  apply walk_total.
  - pose proof (size_neighbours ({[n]} ∪ g)). lia.
  - pose proof (weight_bound bonds ({[n]} ∪ g) (push row ({[n]} ∪ g) [])). lia.
  - unfold push. rewrite app_nil_r. apply Forall_forall. intros x Hx.
    rewrite elem_of_reverse in Hx. apply list_elem_of_filter in Hx as [_ Hx].
    apply elem_of_list_to_set. by eapply row_neighbours.
Qed.

Lemma branch_post n g r :
  run_branch n g = Ok r → n ∉ g → n ∉ remain →
  g ⊆ after r ∧ n ∈ after r ∧ (after r ∖ g) ## remain ∧
  after r ⊆ {[n]} ∪ g ∪ U ∧
  match r with Reached _ => True | Exhausted seen g' => seen = g' ∖ g end.
Proof.
  unfold branch, subscript.
  destruct (Dict.get bonds n) as [row|] eqn:Hrow; [|done]. simpl.
  intros Hr Hn Hrem. apply (walk_post _ _ _ g) in Hr; [|set_solver..|].
  - destruct r; simpl; set_solver.
  - unfold push. rewrite app_nil_r. apply Forall_forall. intros x Hx.
    rewrite elem_of_reverse in Hx. apply list_elem_of_filter in Hx as [Hx1 Hx].
    split; [set_solver|]. apply elem_of_list_to_set. by eapply row_neighbours.
Qed.

Lemma contribution_visited n g r :
  run_branch n g = Ok r → n ∉ g → n ∉ remain → contribution r ⊆ after r ∖ g.
Proof.
  intros Hr Hn Hrem. destruct (branch_post _ _ _ Hr Hn Hrem) as (_ & _ & _ & _ & H).
  destruct r; simpl in *; set_solver.
Qed.

(** the loops of the source and their log *)
Lemma committed_cons b log :
  committed (b :: log) = contribution (b_result b) ∪ committed log.
Proof. done. Qed.

Lemma committed_app l1 l2 : committed (l1 ++ l2) = committed l1 ∪ committed l2.
Proof.
  induction l1 as [|b l1 IH]; simpl.
  - unfold committed at 2. simpl. set_solver.
  - rewrite !committed_cons, IH. set_solver.
Qed.

Lemma scan_neighbours_log ns : ∀ d g,
  scan_neighbours bonds to_delete remain ns d g =
  rbind (branches_of_neighbours bonds to_delete remain ns g)
    (λ '(log, g'), Ok (d ∪ committed log, g')).
Proof.
  induction ns as [|n ns IH]; intros d g; simpl.
  { f_equal. f_equal. unfold committed. simpl. set_solver. }
  case_decide; [done|].
  destruct (run_branch n g) as [[g'|seen g']|e]; simpl; [| |done].
  all: rewrite IH.
  all: destruct (branches_of_neighbours _ _ _ ns g') as [[log g'']|]; simpl; [|done].
  all: f_equal; f_equal; rewrite committed_cons; simpl; set_solver.
Qed.

Lemma scan_core_log xs : ∀ d g,
  scan_core bonds to_delete remain xs d g =
  rbind (branches_of_core bonds to_delete remain xs g)
    (λ '(log, g'), Ok (d ∪ committed log, g')).
Proof.
  induction xs as [|x xs IH]; intros d g; simpl.
  { f_equal. f_equal. unfold committed. simpl. set_solver. }
  destruct (subscript bonds x) as [row|]; [|done].
  rewrite scan_neighbours_log.
  destruct (branches_of_neighbours _ _ _ _ g) as [[log g']|]; simpl; [|done].
  rewrite IH.
  destruct (branches_of_core _ _ _ xs g') as [[log' g'']|]; simpl; [|done].
  f_equal. f_equal. rewrite committed_app. set_solver.
Qed.

Lemma log_end_app g l1 l2 : log_end g (l1 ++ l2) = log_end (log_end g l1) l2.
Proof. apply foldl_app. Qed.

Lemma chained_app g l1 l2 :
  chained g (l1 ++ l2) ↔ chained g l1 ∧ chained (log_end g l1) l2.
Proof.
  revert g. induction l1 as [|b l1 IH]; intros g; simpl; [naive_solver|].
  rewrite IH. naive_solver.
Qed.

Lemma branches_of_neighbours_chained ns : ∀ g log g',
  branches_of_neighbours bonds to_delete remain ns g = Ok (log, g') →
  chained g log ∧ g' = log_end g log ∧ Forall (λ b, b_start b ∈ ns) log.
Proof.
  induction ns as [|n ns IH]; intros g log g' H; simpl in H.
  { simplify_eq. done. }
  case_decide as Hn.
  { apply IH in H as (? & ? & ?). split_and!; [done..|].
    eapply Forall_impl; [done|]. set_solver. }
  destruct (run_branch n g) as [r|] eqn:Hr; [|done].
  destruct (branches_of_neighbours _ _ _ ns (after r)) as [[log' g'']|] eqn:Hrec; [|done].
  simpl in H. simplify_eq. apply IH in Hrec as (? & ? & ?).
  simpl. split_and!; try done; try tauto.
  constructor; [set_solver|]. eapply Forall_impl; [done|]. set_solver.
Qed.

Local Abbreviation core_neighbour := (core_neighbour bonds).

Lemma branches_of_core_chained xs : ∀ g log g',
  branches_of_core bonds to_delete remain xs g = Ok (log, g') →
  chained g log ∧ g' = log_end g log ∧ Forall (λ b, core_neighbour xs (b_start b)) log.
Proof.
  induction xs as [|x xs IH]; intros g log g' H; simpl in H.
  { simplify_eq. done. }
  unfold subscript in H. destruct (Dict.get bonds x) as [row|] eqn:Hrow; [|done].
  destruct (branches_of_neighbours _ _ _ _ g) as [[l1 g1]|] eqn:H1; [|done].
  destruct (branches_of_core _ _ _ xs g1) as [[l2 g2]|] eqn:H2; [|done].
  simpl in H. simplify_eq.
  apply branches_of_neighbours_chained in H1 as (? & -> & Hs1).
  apply IH in H2 as (? & -> & Hs2).
  rewrite chained_app, log_end_app. split_and!; try done.
  apply Forall_app. split.
  - eapply Forall_impl; [done|]. intros b Hb. exists x, row. set_solver.
  - eapply Forall_impl; [done|]. intros b (x' & row' & ? & ? & ?). exists x', row'. set_solver.
Qed.

Lemma chained_mono g log : chained g log → g ⊆ log_end g log.
Proof.
  revert g. induction log as [|b log IH]; intros g; simpl; [done|].
  intros (? & Hs & Hr & Hb & Hc). apply IH in Hc.
  destruct (branch_post _ _ _ Hb Hs Hr) as (? & _). etrans; done.
Qed.

Lemma chained_committed g log : chained g log → committed log ## g ∧ committed log ## remain.
Proof.
  revert g. induction log as [|b log IH]; intros g; simpl.
  { unfold committed. simpl. set_solver. }
  intros (? & Hs & Hr & Hb & Hc). rewrite committed_cons.
  destruct (IH _ Hc) as [IH1 IH2].
  pose proof (contribution_visited _ _ _ Hb Hs Hr).
  destruct (branch_post _ _ _ Hb Hs Hr) as (? & _ & ? & _). set_solver.
Qed.

(** an atom is committed only by the walk that visited it *)
Lemma chained_visited g log b a :
  chained g log → b ∈ log → a ∈ visited b → a ∈ committed log →
  a ∈ contribution (b_result b).
Proof.
  revert g. induction log as [|b0 log IH]; intros g; simpl; [set_solver|].
  intros (Hg & Hs & Hr & Hb & Hc) Hin Ha Hcom.
  rewrite committed_cons in Hcom.
  destruct (chained_committed _ _ Hc) as [Hd _].
  pose proof (contribution_visited _ _ _ Hb Hs Hr) as Hcv.
  apply elem_of_cons in Hin as [->|Hin].
  - unfold visited in Ha. set_solver.
  - assert (after (b_result b0) ⊆ b_before b) as Hsub.
    { clear -Hc Hin. revert Hc. generalize (after (b_result b0)).
      induction log as [|b1 log IH]; intros g0; simpl; [set_solver|].
      intros (Hg & Hs & Hr & Hb & Hc). apply elem_of_cons in Hin as [->|Hin]; [set_solver|].
      destruct (branch_post _ _ _ Hb Hs Hr) as (? & _). etrans; [|by apply IH]. done. }
    apply (IH _ Hc Hin Ha). unfold visited in Ha. set_solver.
Qed.
End branch_facts.

(** ** Runs on a closed bond table return *)

Section closed.
Variable bonds : list (Z * list (Z * loc)).
Variables to_delete remain : gset Z.
Hypothesis Hclosed : closed_bonds bonds.

Lemma walk_no_KeyError fa : ∀ fb stack seen g,
  Forall (λ x, is_Some (Dict.get bonds x)) stack →
  walk bonds to_delete remain fa fb stack seen g ≠ Err KeyError.
Proof.
  induction fa as [|fa IHa].
  all: induction fb as [|fb IHb].
  all: intros stack seen g Hst; rewrite walk_unfold.
  all: destruct stack as [|c stack]; [done|].
  all: apply Forall_cons in Hst as [[row Hc] Hst].
  all: destruct (decide (c ∈ remain)); [done|].
  all: destruct (decide (c ∈ to_delete)); [try done; by apply IHb|].
  all: rewrite Hc; cbv zeta.
  all: assert (Forall (λ x, is_Some (Dict.get bonds x)) (push row ({[c]} ∪ g) stack))
    by (unfold push; apply Forall_app; split; [|done];
        apply Forall_forall; intros x Hx; rewrite elem_of_reverse in Hx;
        apply list_elem_of_filter in Hx as [_ Hx]; by eapply Hclosed).
  all: destruct (decide (c ∈ g)); try done; auto.
Qed.

Lemma walk_errors fa : ∀ fb stack seen g e,
  walk bonds to_delete remain fa fb stack seen g = Err e → e = KeyError ∨ e = LoopFuel.
Proof.
  induction fa as [|fa IHa].
  all: induction fb as [|fb IHb].
  all: intros stack seen g e; rewrite walk_unfold.
  all: destruct stack as [|c stack]; [done|].
  all: destruct (decide (c ∈ remain)); [done|].
  all: destruct (decide (c ∈ to_delete)); [naive_solver|].
  all: destruct (Dict.get bonds c); [|naive_solver]; cbv zeta.
  all: destruct (decide (c ∈ g)); naive_solver.
Qed.

Lemma branch_returns n g :
  is_Some (Dict.get bonds n) → ∃ r, branch bonds to_delete remain n g = Ok r.
Proof.
  intros [row Hrow].
  destruct (branch bonds to_delete remain n g) as [r|e] eqn:Hb; [by eexists|].
  exfalso. pose proof (branch_total bonds to_delete remain n g) as Htot.
  unfold branch, subscript in Hb, Htot. rewrite Hrow in Hb, Htot. simpl in Hb, Htot.
  destruct (walk_errors _ _ _ _ _ _ Hb) as [->| ->]; [|done].
  apply walk_no_KeyError in Hb; [done|].
  unfold push. rewrite app_nil_r. apply Forall_forall. intros x Hx.
  rewrite elem_of_reverse in Hx. apply list_elem_of_filter in Hx as [_ Hx].
  by eapply Hclosed.
Qed.

Lemma branches_of_neighbours_returns ns : ∀ g,
  Forall (λ x, is_Some (Dict.get bonds x)) ns →
  ∃ out, branches_of_neighbours bonds to_delete remain ns g = Ok out.
Proof.
  induction ns as [|n ns IH]; intros g Hns; simpl; [by eexists|].
  apply Forall_cons in Hns as [Hn Hns].
  case_decide; [by apply IH|].
  destruct (branch_returns n g Hn) as [r ->].
  destruct (IH (after r) Hns) as [[log g'] ->]. by eexists.
Qed.

Lemma branches_of_core_returns xs : ∀ g,
  Forall (λ x, is_Some (Dict.get bonds x)) xs →
  ∃ out, branches_of_core bonds to_delete remain xs g = Ok out.
Proof.
  induction xs as [|x xs IH]; intros g Hxs; simpl; [by eexists|].
  apply Forall_cons in Hxs as [[row Hx] Hxs].
  unfold subscript. rewrite Hx.
  destruct (branches_of_neighbours_returns (Dict.keys row) g) as [[log g'] ->].
  { apply Forall_forall. intros m Hm. by eapply Hclosed. }
  destruct (IH g' Hxs) as [[log' g''] ->]. by eexists.
Qed.
End closed.

Lemma map_core_spec mapping xs core :
  map_core mapping xs = Ok core →
  ∀ m, m ∈ core ↔ ∃ x, x ∈ xs ∧ mapping !! x = Some m.
Proof.
  revert core. induction xs as [|x xs IH]; intros core H m; simpl in H.
  { simplify_eq. set_solver. }
  destruct (mapping !! x) as [mx|] eqn:Hx; [|done].
  destruct (map_core mapping xs) as [s|]; [|done]. simpl in H. simplify_eq.
  rewrite elem_of_union, elem_of_singleton, (IH s eq_refl). set_solver.
Qed.

Lemma map_core_returns mapping xs :
  Forall (λ x, is_Some (mapping !! x)) xs → ∃ core, map_core mapping xs = Ok core.
Proof.
  induction 1 as [|x xs [m Hm] _ [core IH]]; simpl; [by eexists|].
  rewrite Hm, IH. by eexists.
Qed.

(** ** The walks of [_get_deleted], one after the other *)

Section get_deleted_spec.
Variable set_iter : gset Z → list Z.
Hypothesis set_iter_perm : ∀ X, set_iter X ≡ₚ elements X.

Lemma elem_of_set_iter X x : x ∈ set_iter X ↔ x ∈ X.
Proof. by rewrite set_iter_perm, elem_of_elements. Qed.

Lemma set_iter_singleton x : set_iter {[x]} = [x].
Proof. apply Permutation_singleton_r. by rewrite set_iter_perm, elements_singleton. Qed.

Lemma scenario_B_run l kA kB kC kD self :
  kA ≡ₚ [2] → kB ≡ₚ [1; 3; 4] → kC ≡ₚ [2; 4] → kD ≡ₚ [2; 3] →
  _to_delete self = {[20]} →
  _get_deleted set_iter self (scenario_B l kA kB kC kD) {[10 := 1; 20 := 2; 30 := 3]}
  = Ok {[2]}.
Proof.
  intros HA HB HC HD Hdel. unfold _get_deleted. rewrite Hdel.
  rewrite decide_False by set_solver.
  rewrite set_iter_singleton. simpl.
  replace (({[10 := 1; 20 := 2; 30 := 3]} : gmap Z Z) !! 20) with (Some 2) by done.
  simpl. replace ({[2]} ∪ ∅ : gset Z) with ({[2]} : gset Z) by set_solver.
  rewrite set_iter_singleton.
  symmetry in HA, HB, HC, HD.
  apply permutations_Permutation, list_elem_of_In in HA, HB, HC, HD.
  vm_compute in HA, HB, HC, HD.
  repeat match goal with H : _ ∨ _ |- _ => destruct H as [<-|H] | H : False |- _ => done end.
  all: vm_compute; reflexivity.
Qed.

(** [_get_deleted] returns the empty set when the core deletion set
    is empty. Otherwise (and it does return, on a closed bond table whose
    core atoms are mapped) the result is the core set united with the
    atoms seen by the walks that ran out of atoms: the walks [log] are
    made one after the other, each from a neighbour of a core atom that
    is neither retained nor already in [global_seen]; an atom visited by
    a walk that ran out is deleted, an atom visited by a walk that
    reached a retained atom is deleted only if it is a core atom.
    In scenario B, whatever the order of the neighbours, only B is
    deleted, so D is kept. *)
Theorem get_deleted_branches self structure mapping :
  (_to_delete self = ∅ → _get_deleted set_iter self structure mapping = Ok ∅) ∧
  (_to_delete self ≠ ∅ →
   closed_bonds (_bonds structure) →
   (∀ x, x ∈ _to_delete self →
      ∃ m, mapping !! x = Some m ∧ is_Some (Dict.get (_bonds structure) m)) →
   ∃ res, _get_deleted set_iter self structure mapping = Ok res) ∧
  (∀ res, _to_delete self ≠ ∅ →
   _get_deleted set_iter self structure mapping = Ok res →
   ∃ core log g,
     (∀ m, m ∈ core ↔ ∃ x, x ∈ _to_delete self ∧ mapping !! x = Some m) ∧
     branches_of_core (_bonds structure) core (map_img mapping ∖ core) (set_iter core) ∅
       = Ok (log, g) ∧
     chained (_bonds structure) core (map_img mapping ∖ core) ∅ log ∧
     Forall (λ b, ∃ x row, x ∈ core ∧ Dict.get (_bonds structure) x = Some row ∧
                           b_start b ∈ Dict.keys row) log ∧
     res = core ∪ committed log ∧
     ∀ b a, b ∈ log → a ∈ visited b →
       match b_result b with
       | Exhausted seen _ => a ∈ seen ∧ a ∈ res
       | Reached _ => a ∈ res → a ∈ core
       end) ∧
  (∀ l kA kB kC kD,
   kA ≡ₚ [2] → kB ≡ₚ [1; 3; 4] → kC ≡ₚ [2; 4] → kD ≡ₚ [2; 3] →
   _to_delete self = {[20]} →
   ∃ res, _get_deleted set_iter self (scenario_B l kA kB kC kD)
            {[10 := 1; 20 := 2; 30 := 3]} = Ok res ∧ 2 ∈ res ∧ 4 ∉ res).
Proof.
  split_and!.
  - intros H. unfold _get_deleted. by rewrite decide_True.
  - intros Hne Hcl Hmap. unfold _get_deleted. rewrite decide_False by done.
    destruct (map_core_returns mapping (set_iter (_to_delete self))) as [core Hcore].
    { apply Forall_forall. intros x Hx%elem_of_set_iter.
      destruct (Hmap x Hx) as (m & -> & _). by eexists. }
    rewrite Hcore. simpl. rewrite scan_core_log.
    destruct (branches_of_core_returns (_bonds structure) core (map_img mapping ∖ core) Hcl
                (set_iter core) ∅) as [[log g] ->]; [|by eexists].
    apply Forall_forall. intros m Hm%elem_of_set_iter.
    apply (map_core_spec _ _ _ Hcore) in Hm as (x & Hx%elem_of_set_iter & Hxm).
    destruct (Hmap x Hx) as (m' & ? & ?). by simplify_eq.
  - intros res Hne. unfold _get_deleted. rewrite decide_False by done.
    destruct (map_core mapping (set_iter (_to_delete self))) as [core|] eqn:Hcore; [|done].
    simpl. rewrite scan_core_log.
    destruct (branches_of_core _ _ _ _ _) as [[log g]|] eqn:Hlog; [|done]. simpl.
    rewrite (left_id_L ∅ (∪)). intros [= <-]. exists core, log, g.
    destruct (branches_of_core_chained _ _ _ _ _ _ _ Hlog) as (Hch & _ & Hst).
    split_and!; try done.
    + intros m. rewrite (map_core_spec _ _ _ Hcore). by setoid_rewrite elem_of_set_iter.
    + eapply Forall_impl; [done|]. intros b (x & row & Hx%elem_of_set_iter & ? & ?). eauto.
    + intros b a Hb Ha.
      destruct (b_result b) as [g'|seen g'] eqn:Hr.
      * intros [Hc|Hc]%elem_of_union; [done|].
        pose proof (chained_visited _ _ _ _ _ _ _ Hch Hb Ha Hc) as Hcon.
        rewrite Hr in Hcon. set_solver.
      * assert (a ∈ seen) as Hs; [|split; [done|]].
        { clear -Hch Hb Ha Hr. revert Hch. generalize (∅ : gset Z).
          induction log as [|b0 log IH]; intros g0; simpl; [set_solver|].
          intros (Hg & Hs & Hrem & Hbr & Hc).
          apply elem_of_cons in Hb as [->|Hb]; [|by eapply IH].
          destruct (branch_post _ _ _ _ _ _ Hbr Hs Hrem) as (_ & _ & _ & _ & Hex).
          rewrite Hr in Hex. unfold visited in Ha. rewrite Hr, Hg in Ha. simpl in Ha.
          by subst seen. }
        apply elem_of_union. right. unfold committed.
        apply elem_of_union_list. exists seen. split; [|done].
        apply list_elem_of_fmap. exists b. by rewrite Hr.
  - intros l kA kB kC kD HA HB HC HD Hdel. exists {[2]}.
    split; [by apply scenario_B_run|]. set_solver.
Qed.
End get_deleted_spec.

Lemma get_deleted_branches_witness :
  ∃ res,
    _get_deleted elements scenario_B_reactor
      (scenario_B (λ _ _, 1%positive) [2] [1; 3; 4] [2; 4] [2; 3])
      {[10 := 1; 20 := 2; 30 := 3]} = Ok res ∧ 2 ∈ res ∧ 4 ∉ res.
Proof.
  apply (get_deleted_branches elements (λ X, reflexivity (elements X))
           scenario_B_reactor (mkGraph [] []) ∅); reflexivity.
Defined.

(** ** C3: the finalization *)

(** C3 as stated fails: when [thiele] reports that it aromatized a ring,
    [_patcher] does not call [fix_stereo]. *)
Lemma finalize_as_specified_fails :
  ¬ finalize_as_specified (plain_externals true) ring_fixer (mkGraph [] []) empty_state.
Proof.
  unfold finalize_as_specified. simpl. intros [_ [_ H]].
  specialize (H eq_refl). vm_compute in H.
  repeat (apply elem_of_cons in H as [H|H]; [done|]). by apply elem_of_nil in H.
Qed.

(** C3, amended. With [fix_rings], [_patcher] calls [kekule], then
    [thiele], and then [fix_stereo] exactly when [thiele] returns a false
    value, that is when it reports no aromatized ring; without
    [fix_rings] it calls [fix_stereo] alone. Each routine works on the
    store its predecessor left. *)
Theorem finalize_calls E self new σ :
  let σ' := (finalize E self new σ).2 in
  (finalize E self new σ).1 = Ok () ∧ mapping σ' = mapping σ ∧
  if _fix_rings self then
    let h1 := kekule E (heap σ) new in
    let h2 := (thiele E h1 new (_fix_tautomers self)).1 in
    if (thiele E h1 new (_fix_tautomers self)).2
    then calls σ' = calls σ ++ [Kekule; Thiele (_fix_tautomers self)] ∧ heap σ' = h2
    else calls σ' = calls σ ++ [Kekule; Thiele (_fix_tautomers self); FixStereo] ∧
         heap σ' = fix_stereo E h2 new
  else calls σ' = calls σ ++ [FixStereo] ∧ heap σ' = fix_stereo E (heap σ) new.
Proof.
  unfold finalize. unfold_M. destruct (_fix_rings self); simpl.
  - destruct (thiele E _ new _) as [h2 []] eqn:Ht; simpl; rewrite <-?app_assoc; done.
  - done.
Qed.

(** ** C2 and C7: the cis/trans label of a marked bond *)

(** a turn of the loop of lines 186-191 changes nothing *)
Lemma translate_bond_state E structure new nm σ :
  (translate_bond E structure new nm σ).2 = σ.
Proof.
  unfold translate_bond, index. unfold_M.
  destruct (_ !! nm.1) as [t|]; [|done]. destruct (_ !! nm.2) as [t'|]; [|done].
  case_decide; [|done].
  repeat (destruct (_ !! _); simpl; [|done]).
  case_decide; [done|].
  unfold subscript. repeat (destruct (Dict.get _ _); simpl; [|done]). done.
Qed.

Lemma translate_bonds_state E structure new nms σ :
  (for_ nms (λ nm _, translate_bond E structure new nm) () σ).2 = σ.
Proof.
  revert σ. induction nms as [|nm nms IH]; intros σ; simpl; [done|].
  unfold_M. pose proof (translate_bond_state E structure new nm σ) as H.
  destruct (translate_bond E structure new nm σ) as [[[]|e] σ']; simpl in *; subst; [|done].
  apply IH.
Qed.

(** C2, at a failing input. In difluoroethene with the carbon 1 patched
    by itself, the pair (1, 2) is marked, the terminals of its double bond
    system are the same in the old and in the new graph, and the sign
    translation gives the label of the old bond; the new bond ends
    without label. *)
Theorem cis_trans_label_not_assigned :
  let E := ethene_externals in
  let run := _patcher E elements same_carbon difluoroethene difluoroethene_state in
  ∃ st to_delete σ new σ',
    assemble elements same_carbon difluoroethene difluoroethene_state = (Ok (st, to_delete), σ) ∧
    (1, 2) ∈ stereo_bonds st ∧
    run = (Ok new, σ') ∧
    _stereo_cis_trans_terminals E (heap σ') new !! 1 = Some (3, 4) ∧
    _stereo_cis_trans_terminals E (heap σ') new !! 2 = Some (3, 4) ∧
    stereogenic_cis_trans E (heap σ') new !! (3, 4) =
      stereogenic_cis_trans E (heap σ') difluoroethene !! (3, 4) ∧
    _translate_cis_trans_sign E (heap σ') new (3, 4) [3; 4] (Some true) = Some true ∧
    bstereo <$> bond_between (heap σ') difluoroethene 1 2 = Some (Some true) ∧
    bstereo <$> bond_between (heap σ') new 1 2 = Some None.
Proof.
  simpl. eexists _, _, _, _, _. split_and!; try (vm_compute; reflexivity).
  vm_compute. apply list_elem_of_In. simpl. tauto.
Qed.

(** C7, at a failing input. The same patch replaces nothing, and the
    graph it returns has the atoms and the bonds of the host, with equal
    atoms and equal bond orders; but the double bond has lost its label. *)
Theorem identity_patch_loses_label :
  ∃ new σ',
    _patcher ethene_externals elements same_carbon difluoroethene difluoroethene_state
      = (Ok new, σ') ∧
    Dict.keys (_atoms new) = Dict.keys (_atoms difluoroethene) ∧
    (∀ n, atom_of (heap σ') new n = atom_of (heap σ') difluoroethene n) ∧
    (∀ n m, order <$> bond_between (heap σ') new n m =
            order <$> bond_between (heap σ') difluoroethene n m) ∧
    bstereo <$> bond_between (heap σ') difluoroethene 1 2 = Some (Some true) ∧
    bstereo <$> bond_between (heap σ') new 1 2 = Some None.
Proof.
  eexists _, _. split_and!; try (vm_compute; reflexivity).
  - intros n. unfold atom_of.
    destruct (decide (n = 1)) as [->|]; [vm_compute; reflexivity|].
    destruct (decide (n = 2)) as [->|]; [vm_compute; reflexivity|].
    destruct (decide (n = 3)) as [->|]; [vm_compute; reflexivity|].
    destruct (decide (n = 4)) as [->|]; [vm_compute; reflexivity|].
    simpl. rewrite !decide_False by done. done.
  - intros n m. unfold bond_between.
    destruct (decide (n = 1)) as [->|];
      [destruct (decide (m = 2)) as [->|]; [vm_compute; reflexivity|];
       destruct (decide (m = 3)) as [->|]; [vm_compute; reflexivity|];
       simpl; rewrite !decide_False by done; done|].
    destruct (decide (n = 2)) as [->|];
      [destruct (decide (m = 1)) as [->|]; [vm_compute; reflexivity|];
       destruct (decide (m = 4)) as [->|]; [vm_compute; reflexivity|];
       simpl; rewrite !decide_False by done; done|].
    destruct (decide (n = 3)) as [->|];
      [destruct (decide (m = 1)) as [->|]; [vm_compute; reflexivity|];
       simpl; rewrite !decide_False by done; done|].
    destruct (decide (n = 4)) as [->|];
      [destruct (decide (m = 2)) as [->|]; [vm_compute; reflexivity|];
       simpl; rewrite !decide_False by done; done|].
    simpl. rewrite !decide_False by done. done.
Qed.

(** ** C10: the mapping after a raise *)

Lemma store_atom_state m a st σ :
  ∃ l, store_atom m a st σ =
       (Ok {| natoms := Dict.set m l (natoms st); nbonds := Dict.set m [] (nbonds st);
              max_atom := max_atom st; stereo_atoms := stereo_atoms st;
              stereo_bonds := stereo_bonds st |},
        {| heap := {| atom_obj := <[l := a]> (atom_obj (heap σ)); bond_obj := bond_obj (heap σ) |};
           mapping := mapping σ; calls := calls σ |}) ∧
       l = fresh (dom (atom_obj (heap σ))).
Proof. eexists. split; [|done]. done. Qed.

Lemma matched_stereo_max m rs sa a st :
  max_atom (matched_stereo m rs sa a st).2 = max_atom st.
Proof. unfold matched_stereo. by destruct rs, (stereo sa). Qed.

(** a turn changes [mapping] as [alloc_step] says, whether it raises or not *)
Lemma patch_atom_mapping atoms n ra st σ :
  let out := patch_atom atoms n ra st σ in
  mapping out.2 = (alloc_step (mapping σ, max_atom st) (n, ra)).1 ∧
  ∀ st', out.1 = Ok st' →
    max_atom st' = (alloc_step (mapping σ, max_atom st) (n, ra)).2.
Proof.
  unfold patch_atom, alloc_step, allocates. simpl.
  assert (∀ m rs sa a st0, ∃ a1 st1, matched_stereo m rs sa a st0 = (a1, st1) ∧
            max_atom st1 = max_atom st0) as Hms.
  { intros m rs sa a st0. destruct (matched_stereo m rs sa a st0) as [a1 st1] eqn:Hs.
    exists a1, st1. split; [done|]. by rewrite <-(matched_stereo_max m rs sa a st0), Hs. }
  destruct ra as [rc rr rs|z iso rc rr rs hs|z iso rc rr rs h c]; unfold_M; simpl.
  all: destruct (truthy (mapping σ !! n)) as [m|] eqn:Hm; simpl.
  all: unfold subscript; try destruct (Dict.get atoms m) as [l|]; simpl; try done.
  all: try (match goal with
            | |- context [matched_stereo ?m ?rs ?sa ?a ?st0] =>
                destruct (Hms m rs sa a st0) as (a1 & st1 & -> & Hmax)
            end; simpl; split; [done|]; by intros st' [= <-]).
  all: try (destruct hs as [|h [|h' hs]]; simpl).
  all: split; [done|]; try done; by intros st' [= <-].
Qed.





(** ** Dictionaries *)

Section dict_facts.
Context {V : Type}.
Implicit Types (d : list (Z * V)) (k : Z) (v : V).

Lemma dict_get_set_eq d k v : Dict.get (Dict.set k v d) k = Some v.
Proof.
  induction d as [|[k' v'] d IH]; simpl; [by rewrite decide_True|].
  destruct (decide (k = k')) as [->|Hne]; simpl; [by rewrite decide_True|].
  by rewrite decide_False.
Qed.

Lemma dict_get_set_ne d k k' v : k ≠ k' → Dict.get (Dict.set k v d) k' = Dict.get d k'.
Proof.
  intros Hne. induction d as [|[k0 v0] d IH]; simpl; [by rewrite decide_False|].
  destruct (decide (k = k0)) as [->|]; simpl; [by rewrite !decide_False|].
  by rewrite IH.
Qed.

Lemma dict_get_Some d k v : Dict.get d k = Some v → (k, v) ∈ d.
Proof.
  induction d as [|[k' v'] d IH]; simpl; [done|].
  case_decide; [intros [= ->]; subst; left|right; auto].
Qed.

Lemma dict_get_is_Some d k : is_Some (Dict.get d k) ↔ k ∈ Dict.dom d.
Proof.
  unfold Dict.dom, Dict.keys. rewrite elem_of_list_to_set.
  induction d as [|[k' v'] d IH]; simpl.
  - split; [by intros [? ?]|by intros ?%elem_of_nil].
  - rewrite elem_of_cons. case_decide; [naive_solver|]. rewrite IH. naive_solver.
Qed.

Lemma dict_get_None d k : Dict.get d k = None ↔ k ∉ Dict.dom d.
Proof. rewrite <-dict_get_is_Some, eq_None_not_Some. done. Qed.

Lemma dict_mem_dom d k : Dict.mem k d = true ↔ k ∈ Dict.dom d.
Proof.
  rewrite <-dict_get_is_Some. unfold Dict.mem.
  destruct (Dict.get d k); split; (done || by intros [? ?] || eauto).
Qed.

Lemma dict_elem_of_dom d k v : (k, v) ∈ d → k ∈ Dict.dom d.
Proof.
  intros H. apply elem_of_list_to_set, list_elem_of_fmap. by exists (k, v).
Qed.

Lemma dict_dom_set d k v : Dict.dom (Dict.set k v d) = {[k]} ∪ Dict.dom d.
Proof.
  apply set_eq. intros k'. rewrite <-!dict_get_is_Some, elem_of_union, elem_of_singleton.
  rewrite <-dict_get_is_Some. destruct (decide (k = k')) as [->|Hne].
  - rewrite dict_get_set_eq. naive_solver.
  - rewrite dict_get_set_ne by done. naive_solver.
Qed.

Lemma dict_keys_set_NoDup d k v : NoDup (Dict.keys d) → NoDup (Dict.keys (Dict.set k v d)).
Proof.
  unfold Dict.keys. induction d as [|[k' v'] d IH]; simpl; [intros _; apply NoDup_singleton|].
  intros [Hk Hd]%NoDup_cons. destruct (decide (k = k')) as [->|Hne]; simpl.
  - by apply NoDup_cons.
  - apply NoDup_cons. split; [|auto].
    intros Hin. apply Hk.
    assert (k' ∈ Dict.dom (Dict.set k v d)) as H
      by (by apply elem_of_list_to_set).
    rewrite dict_dom_set in H. apply elem_of_union in H as [H|H]; [set_solver|].
    by apply elem_of_list_to_set in H.
Qed.

Lemma dict_keys_length d : NoDup (Dict.keys d) → length d = size (Dict.dom d).
Proof.
  intros H. unfold Dict.dom. rewrite size_list_to_set by done.
  unfold Dict.keys. by rewrite length_fmap.
Qed.
End dict_facts.

(** ** The turns of the atom loop *)

Lemma patch_atom_ok atoms n ra st σ st' σ' :
  patch_atom atoms n ra st σ = (Ok st', σ') →
  let l := fresh (dom (atom_obj (heap σ))) in
  ∃ m a,
    natoms st' = Dict.set m l (natoms st) ∧
    nbonds st' = Dict.set m [] (nbonds st) ∧
    stereo_bonds st' = stereo_bonds st ∧
    heap σ' = heap (with_atom σ l a) ∧ calls σ' = calls σ ∧
    ((truthy (mapping σ !! n) = Some m ∧ mapping σ' = mapping σ ∧
      max_atom st' = max_atom st ∧
      ∃ ls, Dict.get atoms m = Some ls ∧
            a = matched_atom ra (atom_at (heap σ) ls) ∧
            stereo_atoms st' = marks_after ra (atom_at (heap σ) ls) m (stereo_atoms st)) ∨
     (truthy (mapping σ !! n) = None ∧ is_any ra = false ∧
      m = max_atom st + 1 ∧ max_atom st' = m ∧
      mapping σ' = <[n := m]> (mapping σ) ∧
      stereo_atoms st' = stereo_atoms st ∧ a = fresh_atom ra)).
Proof.
  unfold patch_atom.
  destruct ra as [rc rr rs|z iso rc rr rs hs|z iso rc rr rs h c]; unfold_M; simpl.
  all: destruct (truthy (mapping σ !! n)) as [m|] eqn:Hm; simpl; try done.
  all: unfold subscript; try (destruct (Dict.get atoms m) as [ls|] eqn:Hls; simpl; [|done]).
  all: try (unfold matched_stereo, marks_after; simpl;
            destruct rs as [s|], (stereo (atom_at (heap σ) ls)) as [s'|] eqn:Hsa; simpl;
            intros [= <- <-]; eexists m, _; split_and!; try done;
            left; split_and!; try done; exists ls; split_and!; try done;
            unfold marks_after; simpl; by rewrite ?Hsa).
  all: try (destruct hs as [|h [|h' hs]]; simpl; try done).
  all: intros [= <- <-]; eexists _, _; split_and!; try done; right; done.
Qed.

Lemma elem_of_fresh_ids a b k : k ∈ fresh_ids a b ↔ a < k ≤ b.
Proof. unfold fresh_ids. rewrite elem_of_list_to_set, elem_of_seqZ. lia. Qed.

Lemma size_fresh_ids a b : size (fresh_ids a b) = Z.to_nat (b - a).
Proof.
  unfold fresh_ids. rewrite size_list_to_set by apply NoDup_seqZ. by rewrite length_seqZ.
Qed.

Lemma fresh_ids_empty a : fresh_ids a a = ∅.
Proof. apply set_eq. intros k. rewrite elem_of_fresh_ids, elem_of_empty. lia. Qed.

(** the identifiers in the tables after the atom loop: those of matched
    host atoms, and the new ones *)
Lemma patch_atoms_keys atoms ras : ∀ st σ st' σ',
  for_ ras (λ '(n, ra) st, patch_atom atoms n ra st) st σ = (Ok st', σ') →
  (∀ k, k ∈ Dict.dom atoms → k ≤ max_atom st) →
  max_atom st ≤ max_atom st' ∧
  ∃ matched : gset Z,
    Dict.dom (natoms st') = Dict.dom (natoms st) ∪ matched ∪ fresh_ids (max_atom st) (max_atom st') ∧
    Dict.dom (nbonds st') = Dict.dom (nbonds st) ∪ matched ∪ fresh_ids (max_atom st) (max_atom st') ∧
    ∀ m, m ∈ matched → m ∈ Dict.dom atoms ∧ ∃ n, n ∈ Dict.keys ras ∧ mapping σ !! n = Some m.
Proof.
  induction ras as [|[n ra] ras IH]; intros st σ st' σ' H Hmax; simpl in H.
  { unfold_M. simplify_eq. split; [done|]. exists ∅. rewrite fresh_ids_empty. set_solver. }
  unfold_M. destruct (patch_atom atoms n ra st σ) as [[st1|e] σ1] eqn:H1; [|done].
  apply patch_atom_ok in H1 as (m & a & Hna & Hnb & _ & _ & _ & Hcase).
  apply IH in H as (Hle & matched & Hd1 & Hd2 & Hm).
  2:{ intros k Hk. specialize (Hmax k Hk). destruct Hcase as [(_&_&->&_)|(_&_&->&->&_)]; lia. }
  rewrite Hna, dict_dom_set in Hd1. rewrite Hnb, dict_dom_set in Hd2.
  destruct Hcase as [(Ht & Hmap & Hmx & ls & Hls & _)|(Ht & _ & -> & Hmx & Hmap & _)].
  - rewrite Hmx in *. split; [done|]. exists ({[m]} ∪ matched).
    split_and!; [set_solver|set_solver|].
    intros k [->%elem_of_singleton|Hk]%elem_of_union.
    + split; [apply dict_get_is_Some; eauto|]. exists n. split; [set_solver|].
      unfold truthy in Ht. destruct (mapping σ !! n); [|done]. by case_decide; simplify_eq.
    + rewrite Hmap in Hm. destruct (Hm k Hk) as (? & n' & ? & ?). split; [done|].
      exists n'. set_solver.
  - split; [lia|]. exists matched.
    assert ({[max_atom st + 1]} ∪ fresh_ids (max_atom st1) (max_atom st') =
            fresh_ids (max_atom st) (max_atom st')) as Hf.
    { apply set_eq. intros k. rewrite elem_of_union, elem_of_singleton, !elem_of_fresh_ids. lia. }
    split_and!; [rewrite Hd1, <-Hf; set_solver|rewrite Hd2, <-Hf; set_solver|].
    intros k Hk. destruct (Hm k Hk) as (Hka & n' & ? & Hn'). split; [done|].
    exists n'. split; [set_solver|]. rewrite Hmap in Hn'.
    destruct (decide (n = n')) as [<-|Hne]; [|by rewrite lookup_insert_ne in Hn'].
    rewrite lookup_insert_eq in Hn'. simplify_eq. specialize (Hmax _ Hka). lia.
Qed.

(** ** Loops *)

(** the rule of the [for] loop: [I] is kept by the turns that return,
    [S] relates the state before and after any turn *)
Lemma for_inv {X A} (I : A → State → Prop) (S : State → State → Prop)
    `{!Reflexive S, !Transitive S} (xs : list X) (body : X → A → M A) :
  (∀ x acc σ, x ∈ xs → I acc σ →
     outcome (body x acc σ) (λ acc' σ', I acc' σ' ∧ S σ σ') (S σ)) →
  ∀ acc σ, I acc σ →
    outcome (for_ xs body acc σ) (λ acc' σ', I acc' σ' ∧ S σ σ') (S σ).
Proof.
  induction xs as [|x xs IH]; intros Hbody acc σ HI; simpl.
  { unfold_M. simpl. done. }
  unfold_M. pose proof (Hbody x acc σ (list_elem_of_here _ _) HI) as Hx.
  destruct (body x acc σ) as [[acc1|e] σ1]; simpl in *; [|done].
  destruct Hx as [HI1 HS1].
  pose proof (IH (λ y acc σ Hy, Hbody y acc σ (list_elem_of_further _ _ _ Hy)) acc1 σ1 HI1)
    as Hrec.
  destruct (for_ xs body acc1 σ1) as [[acc2|e] σ2]; simpl in *.
  - destruct Hrec. split; [done|]. by etrans.
  - by etrans.
Qed.

Lemma outcome_impl {A} (x : result A * State) (Q Q' : A → State → Prop) (R R' : State → Prop) :
  outcome x Q R → (∀ a σ, Q a σ → Q' a σ) → (∀ σ, R σ → R' σ) → outcome x Q' R'.
Proof. destruct x as [[a|e] σ]; simpl; auto. Qed.

Lemma outcome_Ok {A} (x : result A * State) Q R a σ : outcome x Q R → x = (Ok a, σ) → Q a σ.
Proof. by intros H ->. Qed.

(** ** The turns of the bond loops *)

Global Instance extends_refl : Reflexive extends.
Proof. intros σ. by split_and!. Qed.

Global Instance extends_trans : Transitive extends.
Proof.
  intros σ1 σ2 σ3 (? & ? & ?) (? & ? & ?). split_and!; [by etrans..|congruence].
Qed.

Lemma dict_elem_of_set {V} (d : list (Z * V)) k v k' v' :
  (k', v') ∈ Dict.set k v d → (k' = k ∧ v' = v) ∨ (k', v') ∈ d.
Proof.
  induction d as [|[k0 v0] d IH]; simpl.
  - intros ?%list_elem_of_singleton. simplify_eq. by left.
  - case_decide; subst; intros [?|?]%elem_of_cons; simplify_eq; auto.
    + right. by right.
    + right. by left.
    + destruct IH as [?|?]; auto. right. by right.
Qed.

Lemma fresh_atom_loc (m : gmap loc Atom) : fresh (dom m) ∉ dom m.
Proof. apply is_fresh. Qed.

Lemma insert_fresh_subseteq {V} (m : gmap loc V) v : m ⊆ <[fresh (dom m) := v]> m.
Proof. apply insert_subseteq, not_elem_of_dom, is_fresh. Qed.

Lemma set_bond_spec h0 n m l st σ :
  fresh_tables h0 st → l ∉ dom (bond_obj h0) →
  outcome (set_bond n m l st σ)
    (λ st' σ', fresh_tables h0 st' ∧ bond_turn st σ st' σ' ∧ σ' = σ ∧
               stereo_bonds st' = stereo_bonds st ∧
               ∃ row, Dict.get (nbonds st) n = Some row ∧
                      nbonds st' = Dict.set n (Dict.set m l row) (nbonds st))
    (λ σ', σ' = σ ∧ n ∉ Dict.dom (nbonds st)).
Proof.
  intros [Ha Hb] Hl. unfold set_bond, subscript. unfold_M.
  destruct (Dict.get (nbonds st) n) as [row|] eqn:Hrow; simpl.
  - split_and!; try done; [|split_and!; try done|by eexists].
    + split; [done|]. simpl. intros n' row' m' l' [[-> ->]|?]%dict_elem_of_set; [|by eauto].
      intros [[-> ->]|?]%dict_elem_of_set; [done|].
      eapply Hb; [|done]. by apply dict_get_Some.
    + simpl. rewrite dict_dom_set.
      assert (n ∈ Dict.dom (nbonds st)) by (apply dict_get_is_Some; eauto). set_solver.
  - split; [done|]. by apply dict_get_None.
Qed.

(** * Further properties of the code *)

(** ** The constructor *)

(** X1 ([BaseReactor.__init__], lines 27-33): a query replacement that holds
    a plain [Element] atom is refused with the error of line 31, whatever
    its bonds are: the atoms are checked before the bonds, so a variable
    bond in the same replacement is not what is reported. *)
Theorem init_rejects_element_in_query pattern rep d fr ft n z iso rc rr rs h c :
  r_is_query rep = true →
  (n, Element z iso rc rr rs h c) ∈ r_atoms rep →
  BaseReactor_init pattern rep d fr ft = Err UnsupportedQueryAtom.
Proof.
  intros Hq Hin. unfold BaseReactor_init, check_replacement. rewrite Hq.
  destruct (forallb _ (r_atoms rep)) eqn:Hall; [|done].
  rewrite forallb_forall in Hall.
  apply list_elem_of_In, Hall in Hin. done.
Qed.

Lemma init_rejects_element_in_query_witness :
  BaseReactor_init [(1, false)] query_with_element true false false
    = Err UnsupportedQueryAtom.
Proof.
  apply (init_rejects_element_in_query _ query_with_element _ _ _
           2 6 None 0 false None (Some 3) origin).
  - reflexivity.
  - vm_compute. right. left.
Defined.

(** X2 ([BaseReactor.__init__], lines 27-38): the constructor returns a
    reactor exactly when the replacement is not a query, or is a query all
    of whose atoms are [AnyElement] or [QueryElement] and all of whose
    bonds have at most one order. *)
Theorem init_accepts pattern rep d fr ft :
  (∃ self, BaseReactor_init pattern rep d fr ft = Ok self) ↔
  (r_is_query rep = true →
     (∀ n a, (n, a) ∈ r_atoms rep → is_query_atom a = true) ∧
     (∀ n bs m b, (n, bs) ∈ r_bonds rep → (m, b) ∈ bs → (length (tb_order b) ≤ 1)%nat)).
Proof.
  unfold BaseReactor_init, check_replacement.
  destruct (r_is_query rep); simpl; [|split; [done|by eexists]].
  destruct (forallb _ (r_atoms rep)) eqn:Ha.
  - destruct (forallb _ (r_bonds rep)) eqn:Hb; simpl.
    + split; [intros _ _|by eexists]. split.
      * intros n a Hin. rewrite forallb_forall in Ha.
        apply list_elem_of_In in Hin. apply (Ha _ Hin).
      * intros n bs m b Hn Hm. rewrite forallb_forall in Hb.
        apply list_elem_of_In in Hn. apply Hb in Hn. simpl in Hn.
        rewrite forallb_forall in Hn. apply list_elem_of_In in Hm.
        apply Hn in Hm. by apply bool_decide_eq_true in Hm.
    + split; [by intros [? ?]|]. intros H. destruct (H eq_refl) as [_ H2].
      exfalso. apply not_true_iff_false in Hb. apply Hb.
      apply forallb_forall. intros [n bs] Hn. apply forallb_forall.
      intros [m b] Hm. apply bool_decide_eq_true. simpl in *.
      eapply H2; apply list_elem_of_In; done.
  - simpl. split; [by intros [? ?]|]. intros H. destruct (H eq_refl) as [H1 _].
    exfalso. apply not_true_iff_false in Ha. apply Ha.
    apply forallb_forall. intros [n a] Hn. apply (H1 n). by apply list_elem_of_In.
Qed.

(** X3 ([BaseReactor.__init__], line 35): the core to delete of a
    constructed reactor holds exactly the unmasked pattern atoms that the
    replacement does not have, and is empty when [delete_atoms] is off; in
    particular no atom of the replacement is ever in the core. *)
Theorem init_core pattern rep d fr ft self :
  BaseReactor_init pattern rep d fr ft = Ok self →
  _replacement self = rep ∧
  _to_delete self ## Dict.dom (r_atoms rep) ∧
  (∀ x, x ∈ _to_delete self ↔
        d = true ∧ (x, false) ∈ pattern ∧ x ∉ Dict.dom (r_atoms rep)).
Proof.
  unfold BaseReactor_init. destruct (check_replacement rep); [|done]. simpl.
  intros [= <-]. simpl. split; [done|].
  assert (∀ x, x ∈ (list_to_set (filter (λ na : Z * bool, na.2 = false) pattern).*1 : gset Z)
               ↔ (x, false) ∈ pattern) as Hf.
  { intros x. rewrite elem_of_list_to_set, list_elem_of_fmap. split.
    - intros ([y b] & -> & Hy). apply list_elem_of_filter in Hy as [Hb Hy].
      simpl in *. by subst.
    - intros Hx. exists (x, false). split; [done|]. by apply list_elem_of_filter. }
  destruct d.
  - split; [set_solver|]. intros x. rewrite elem_of_difference, Hf. naive_solver.
  - split; [set_solver|]. intros x. rewrite elem_of_empty. naive_solver.
Qed.

Lemma init_core_witness :
  ∃ self, BaseReactor_init [(1, false); (2, false); (4, true)] amine_link true false false
            = Ok self ∧ _to_delete self = {[2]}.
Proof.
  eexists. split; [reflexivity|].
  apply set_eq. intros x.
  rewrite (proj2 (proj2 (init_core [(1, false); (2, false); (4, true)] amine_link
                            true false false _ eq_refl)) x).
  rewrite elem_of_singleton. split.
  - intros (_ & Hx & Hn). vm_compute in Hx.
    apply list_elem_of_In in Hx. simpl in Hx.
    destruct Hx as [Hx|[Hx|[Hx|[]]]]; simplify_eq; [|done].
    exfalso. apply Hn. vm_compute. set_solver.
  - intros ->. split; [done|]. split; [set_solver|]. vm_compute. set_solver.
Defined.

(** ** More on the deletion set *)

Lemma map_core_missing mapping xs x :
  x ∈ xs → mapping !! x = None → map_core mapping xs = Err KeyError.
Proof.
  induction xs as [|y xs IH]; intros Hx Hm; [by apply elem_of_nil in Hx|]. simpl.
  destruct (mapping !! y) as [my|] eqn:Hy; [|done].
  apply elem_of_cons in Hx as [->|Hx]; [congruence|]. by rewrite IH.
Qed.

Lemma map_core_errors mapping xs e : map_core mapping xs = Err e → e = KeyError.
Proof.
  induction xs as [|y xs IH]; simpl; [done|].
  destruct (mapping !! y); [|congruence].
  destruct (map_core mapping xs); simpl; [done|]. intros [= <-]. by apply IH.
Qed.

Section scan_facts.
Variable bonds : list (Z * list (Z * loc)).
Variables to_delete remain : gset Z.

Lemma branch_errors n g e : branch bonds to_delete remain n g = Err e → e = KeyError.
Proof.
  intros H. pose proof (branch_total bonds to_delete remain n g) as Ht.
  assert (e ≠ LoopFuel) as Hne by (intros ->; done).
  unfold branch, subscript in H.
  destruct (Dict.get bonds n); simpl in H; [|by injection H].
  revert H. generalize (S (length (all_neighbours bonds))). intros fa H.
  apply walk_errors in H as [?|?]; done.
Qed.

Lemma scan_neighbours_errors ns : ∀ d g e,
  scan_neighbours bonds to_delete remain ns d g = Err e → e = KeyError.
Proof.
  induction ns as [|n ns IH]; intros d g e; simpl; [done|].
  case_decide; [apply IH|].
  destruct (branch bonds to_delete remain n g) as [[g'|seen g']|e'] eqn:Hb.
  - apply IH.
  - apply IH.
  - intros [= <-]. by eapply branch_errors.
Qed.

Lemma scan_core_errors xs : ∀ d g e,
  scan_core bonds to_delete remain xs d g = Err e → e = KeyError.
Proof.
  induction xs as [|x xs IH]; intros d g e; simpl; [done|].
  unfold subscript. destruct (Dict.get bonds x); [|congruence].
  destruct (scan_neighbours _ _ _ _ d g) as [[d' g']|e'] eqn:Hs.
  - apply IH.
  - intros [= <-]. by eapply scan_neighbours_errors.
Qed.

(** a walk all of whose stack is matched visits nothing *)
Lemma walk_matched fa fb : ∀ stack seen g r,
  Forall (λ x, x ∈ remain ∨ x ∈ to_delete) stack →
  walk bonds to_delete remain fa fb stack seen g = Ok r →
  r = Reached g ∨ r = Exhausted seen g.
Proof.
  induction fb as [|fb IH]; intros stack seen g r Hst; rewrite walk_unfold.
  all: destruct stack as [|c stack]; [intros [= <-]; by right|].
  all: apply Forall_cons in Hst as [Hc Hst].
  all: destruct (decide (c ∈ remain)); [intros [= <-]; by left|].
  all: destruct (decide (c ∈ to_delete)); [|tauto].
  - done.
  - by apply IH.
Qed.

Hypothesis core_matched : ∀ x row n,
  x ∈ to_delete → Dict.get bonds x = Some row → n ∈ Dict.keys row →
  n ∈ remain ∨ n ∈ to_delete.

Lemma scan_neighbours_matched ns : ∀ d g d' g',
  Forall (λ n, n ∈ remain ∨ n ∈ to_delete) ns →
  scan_neighbours bonds to_delete remain ns d g = Ok (d', g') → d' ⊆ d ∪ to_delete.
Proof.
  induction ns as [|n ns IH]; intros d g d' g' Hns; simpl.
  { intros [= <- <-]. set_solver. }
  apply Forall_cons in Hns as [Hn Hns].
  destruct (decide (n ∈ g ∨ n ∈ remain)) as [|Hnot]; [by apply IH|].
  assert (n ∈ to_delete) as Hcore by tauto.
  destruct (branch bonds to_delete remain n g) as [[g1|seen g1]|e'] eqn:Hb; [| |done].
  { by apply IH. }
  intros Hs. apply IH in Hs; [|done].
  unfold branch, subscript in Hb.
  destruct (Dict.get bonds n) as [row|] eqn:Hrow; [|done]. simpl in Hb.
  apply walk_matched in Hb as [Hb|Hb]; [done|simplify_eq; set_solver|].
  unfold push. rewrite app_nil_r. apply Forall_forall. intros x Hx.
  rewrite elem_of_reverse in Hx. apply list_elem_of_filter in Hx as [_ Hx].
  by eapply core_matched.
Qed.

Lemma scan_core_matched xs : ∀ d g d' g',
  Forall (λ x, x ∈ to_delete) xs →
  scan_core bonds to_delete remain xs d g = Ok (d', g') → d' ⊆ d ∪ to_delete.
Proof.
  induction xs as [|x xs IH]; intros d g d' g' Hxs; simpl.
  { intros [= <- <-]. set_solver. }
  apply Forall_cons in Hxs as [Hx Hxs].
  unfold subscript. destruct (Dict.get bonds x) as [row|] eqn:Hrow; [|done].
  destruct (scan_neighbours _ _ _ _ d g) as [[d1 g1]|e'] eqn:Hs; [|done].
  intros H. apply IH in H; [|done].
  apply scan_neighbours_matched in Hs; [set_solver|].
  apply Forall_forall. intros n Hn. by eapply core_matched.
Qed.
End scan_facts.

Section get_deleted_more.
Variable set_iter : gset Z → list Z.
Hypothesis set_iter_perm : ∀ X, set_iter X ≡ₚ elements X.

(** X4 ([_get_deleted], line 46): when an atom of the core to delete has no
    entry in the mapping, the call fails with a [KeyError]. *)
Theorem get_deleted_unmapped self structure mapping x :
  x ∈ _to_delete self → mapping !! x = None →
  _get_deleted set_iter self structure mapping = Err KeyError.
Proof.
  intros Hx Hm. unfold _get_deleted.
  destruct (decide (_to_delete self = ∅)) as [He|_]; [set_solver|].
  rewrite (map_core_missing mapping _ x); [done| |done].
  by apply elem_of_set_iter.
Qed.

(** X5 ([_get_deleted], lines 41-70): the only way the call fails is a
    [KeyError] (a missing mapping entry or bond row); in particular the
    [while stack] loop of lines 57-65 always ends. *)
Theorem get_deleted_errors self structure mapping e :
  _get_deleted set_iter self structure mapping = Err e → e = KeyError.
Proof.
  unfold _get_deleted. case_decide; [done|].
  destruct (map_core mapping _) as [core|e'] eqn:Hc; simpl.
  - destruct (scan_core _ _ _ _ _ _) as [[d g]|e'] eqn:Hs; simpl; [done|].
    intros [= <-]. by eapply scan_core_errors.
  - intros [= <-]. by eapply map_core_errors.
Qed.

(** X6 ([_get_deleted], lines 46-70): the returned set contains the image
    of every core atom, and the only matched atoms it contains are images
    of core atoms: a matched atom outside the core is never deleted. *)
Theorem get_deleted_keeps_matched self structure mapping res :
  _get_deleted set_iter self structure mapping = Ok res →
  (∀ x m, x ∈ _to_delete self → mapping !! x = Some m → m ∈ res) ∧
  (∀ n m, mapping !! n = Some m → m ∈ res →
          ∃ x, x ∈ _to_delete self ∧ mapping !! x = Some m).
Proof.
  unfold _get_deleted. case_decide as He.
  { intros [= <-]. split; intros; set_solver. }
  destruct (map_core mapping _) as [core|] eqn:Hc; [|done]. simpl.
  rewrite scan_core_log.
  destruct (branches_of_core _ _ _ _ _) as [[log g]|] eqn:Hl; [|done]. simpl.
  intros [= <-].
  pose proof (map_core_spec _ _ _ Hc) as Hcore.
  apply branches_of_core_chained in Hl as (Hch & _ & _).
  apply chained_committed in Hch as [_ Hrem].
  assert (∀ m, m ∈ core ↔ ∃ x, x ∈ _to_delete self ∧ mapping !! x = Some m) as Hcore'.
  { intros m. rewrite Hcore. by setoid_rewrite elem_of_set_iter. }
  split.
  - intros x m Hx Hm. apply elem_of_union. left. apply Hcore'. eauto.
  - intros n m Hn Hm. apply Hcore'.
    assert (m ∈ (map_img mapping : gset Z)) by (apply elem_of_map_img; eauto).
    set_solver.
Qed.

(** X7 ([_get_deleted], lines 50-67): when every neighbour of every core
    atom is a matched atom, no walk adds anything: the returned set is
    exactly the image of the core. *)
Theorem get_deleted_core_only self structure mapping res :
  (∀ x m row n, x ∈ _to_delete self → mapping !! x = Some m →
                Dict.get (_bonds structure) m = Some row → n ∈ Dict.keys row →
                ∃ k, mapping !! k = Some n) →
  _get_deleted set_iter self structure mapping = Ok res →
  ∀ m, m ∈ res ↔ ∃ x, x ∈ _to_delete self ∧ mapping !! x = Some m.
Proof.
  intros Hnb. unfold _get_deleted. case_decide as He.
  { intros [= <-] m. set_solver. }
  destruct (map_core mapping _) as [core|] eqn:Hc; [|done]. simpl.
  destruct (scan_core _ _ _ _ _ _) as [[d g]|] eqn:Hs; [|done]. simpl.
  intros [= <-] m.
  pose proof (map_core_spec _ _ _ Hc) as Hcore.
  assert (∀ m, m ∈ core ↔ ∃ x, x ∈ _to_delete self ∧ mapping !! x = Some m) as Hcore'.
  { intros m'. rewrite Hcore. by setoid_rewrite elem_of_set_iter. }
  apply scan_core_matched in Hs.
  - rewrite <- Hcore'. set_solver.
  - intros x row n Hx Hrow Hn. apply Hcore' in Hx as (x0 & Hx0 & Hm0).
    destruct (Hnb _ _ _ _ Hx0 Hm0 Hrow Hn) as [k Hk].
    destruct (decide (n ∈ core)); [by right|left].
    apply elem_of_difference. split; [|done]. apply elem_of_map_img. eauto.
  - apply Forall_forall. intros x Hx. by apply elem_of_set_iter in Hx.
Qed.
End get_deleted_more.

Lemma get_deleted_unmapped_witness :
  _get_deleted elements delete_20 chain3 {[10 := 1]} = Err KeyError.
Proof.
  apply (get_deleted_unmapped elements (λ X, reflexivity (elements X))
           delete_20 chain3 {[10 := 1]} 20); [set_solver|reflexivity].
Defined.

Lemma get_deleted_errors_witness :
  _get_deleted elements delete_20 (mkGraph [] []) {[20 := 2]} = Err KeyError ∧
  KeyError = KeyError.
Proof.
  split; [reflexivity|].
  apply (get_deleted_errors elements delete_20 (mkGraph [] []) {[20 := 2]} KeyError).
  reflexivity.
Defined.

Lemma get_deleted_keeps_matched_witness :
  (∀ x m, x ∈ _to_delete delete_20 → ({[10 := 1; 20 := 2]} : gmap Z Z) !! x = Some m →
          m ∈ ({[2; 3]} : gset Z)) ∧
  (∀ n m, ({[10 := 1; 20 := 2]} : gmap Z Z) !! n = Some m → m ∈ ({[2; 3]} : gset Z) →
          ∃ x, x ∈ _to_delete delete_20 ∧ ({[10 := 1; 20 := 2]} : gmap Z Z) !! x = Some m).
Proof.
  apply (get_deleted_keeps_matched elements (λ X, reflexivity (elements X))
           delete_20 chain3 {[10 := 1; 20 := 2]} {[2; 3]}).
  vm_compute. reflexivity.
Defined.

Lemma get_deleted_core_only_witness :
  3 ∈ ({[2]} : gset Z) ↔
  ∃ x, x ∈ _to_delete delete_20 ∧
       ({[10 := 1; 20 := 2; 30 := 3]} : gmap Z Z) !! x = Some 3.
Proof.
  apply (get_deleted_core_only elements (λ X, reflexivity (elements X))
           delete_20 chain3 {[10 := 1; 20 := 2; 30 := 3]} {[2]}).
  - intros x m row n Hx Hm Hrow Hn.
    unfold delete_20 in Hx. simpl in Hx.
    apply elem_of_singleton in Hx as ->. vm_compute in Hm. simplify_eq.
    vm_compute in Hrow. simplify_eq.
    apply list_elem_of_In in Hn. simpl in Hn.
    destruct Hn as [<-|[<-|[]]]; [by exists 10|by exists 30].
  - vm_compute. reflexivity.
Defined.

(** ** The patcher: edge cases *)

Lemma get_deleted_KeyError set_iter self structure mapping e :
  _get_deleted set_iter self structure mapping = Err e → e = KeyError.
Proof.
  unfold _get_deleted. case_decide; [done|].
  destruct (map_core mapping _) as [core|e'] eqn:Hc; simpl.
  - destruct (scan_core _ _ _ _ _ _) as [[d g]|e'] eqn:Hs; simpl; [done|].
    intros [= <-]. by eapply scan_core_errors.
  - intros [= <-]. by eapply map_core_errors.
Qed.

(** X8 ([_patcher], lines 76-80): on a host without atoms the patcher
    always raises, a [KeyError] of [_get_deleted] or else the error of
    [max] on an empty table (line 80), and it leaves the store, the
    mapping and the call trace as they were. *)
Theorem patcher_empty_host E set_iter self structure σ :
  _atoms structure = [] →
  ∃ e, _patcher E set_iter self structure σ = (Err e, σ) ∧ (e = KeyError ∨ e = EmptyMax).
Proof.
  intros Hat. unfold _patcher, assemble. unfold_M. simpl.
  destruct (_get_deleted set_iter self structure (mapping σ)) as [d|e] eqn:Hd; simpl.
  - rewrite Hat. simpl. exists EmptyMax. split; [done|by right].
  - exists e. split; [done|]. left. by eapply get_deleted_KeyError.
Qed.

Lemma patcher_empty_host_witness :
  ∃ e, _patcher (plain_externals false) elements delete_20 (mkGraph [] []) empty_state
         = (Err e, empty_state) ∧ (e = KeyError ∨ e = EmptyMax).
Proof.
  apply (patcher_empty_host (plain_externals false) elements delete_20 (mkGraph [] [])
           empty_state).
  reflexivity.
Defined.

Lemma patch_atom_other atoms k ra st σ n :
  k ≠ n → mapping (patch_atom atoms k ra st σ).2 !! n = mapping σ !! n.
Proof.
  intros Hk. rewrite (proj1 (patch_atom_mapping atoms k ra st σ)).
  unfold alloc_step. simpl. destruct (allocates _ _); simpl; [|done].
  by rewrite lookup_insert_ne.
Qed.

(** X9 ([_patcher], lines 84-97): if the replacement has an [AnyElement]
    whose id has no entry in the mapping, or the entry 0, the loop over
    the replacement atoms does not complete: it raises, at that atom or
    before. *)
Theorem unmatched_any_raises atoms rep n rc rr rs st σ :
  NoDup (Dict.keys (r_atoms rep)) →
  (n, AnyElement rc rr rs) ∈ r_atoms rep →
  truthy (mapping σ !! n) = None →
  ∃ e σ', patch_atoms atoms rep st σ = (Err e, σ').
Proof.
  unfold patch_atoms. generalize (r_atoms rep). intros ras. revert st σ.
  induction ras as [|[k ra] ras IH]; intros st σ Hnd Hin Hm.
  { by apply elem_of_nil in Hin. }
  simpl in Hnd. apply NoDup_cons in Hnd as [Hk Hnd].
  simpl. unfold_M.
  apply elem_of_cons in Hin as [Heq|Hin].
  - injection Heq as <- <-. simpl. unfold_M. rewrite Hm. simpl. by eexists _, _.
  - assert (k ≠ n) as Hkn.
    { intros ->. apply Hk. apply list_elem_of_fmap. by exists (n, AnyElement rc rr rs). }
    pose proof (patch_atom_other atoms k ra st σ n Hkn) as Hother.
    destruct (patch_atom atoms k ra st σ) as [[st1|e] σ1] eqn:Hp; simpl in *.
    + apply IH; [done..|]. by rewrite Hother.
    + by eexists _, _.
Qed.

Lemma unmatched_any_raises_witness :
  ∃ e σ', patch_atoms [(1, 1%positive)]
            {| r_is_query := true; r_atoms := [(5, AnyElement 0 false None)]; r_bonds := [] |}
            (init_locals 1)
            {| heap := methane_heap; mapping := {[5 := 0]}; calls := [] |} = (Err e, σ').
Proof.
  apply (unmatched_any_raises [(1, 1%positive)]
           {| r_is_query := true; r_atoms := [(5, AnyElement 0 false None)]; r_bonds := [] |}
           5 0 false None (init_locals 1)
           {| heap := methane_heap; mapping := {[5 := 0]}; calls := [] |}).
  - simpl. apply NoDup_singleton.
  - simpl. apply list_elem_of_here.
  - reflexivity.
Defined.

(** ** Relations kept by every run *)

Create HintDb preserves discriminated.

Section preserves.
Context (R : relation State) `{!Reflexive R, !Transitive R}.

Lemma preserves_ret {A} (a : A) : preserves R (mret a).
Proof. intros σ. simpl. reflexivity. Qed.

Lemma preserves_raise {A} e : preserves R (@raise A e).
Proof. intros σ. simpl. reflexivity. Qed.

Lemma preserves_lift {A} (r : result A) : preserves R (lift r).
Proof. intros σ. simpl. reflexivity. Qed.

Lemma preserves_bind {A B} (m : M A) (f : A → M B) :
  preserves R m → (∀ a, preserves R (f a)) → preserves R (m ≫= f).
Proof.
  intros Hm Hf σ. pose proof (Hm σ) as H1. unfold_M.
  destruct (m σ) as [[a|e] σ1]; simpl in *; [|done].
  etrans; [done|]. apply Hf.
Qed.

Lemma preserves_for {X A} (xs : list X) (body : X → A → M A) :
  (∀ x acc, preserves R (body x acc)) → ∀ acc, preserves R (for_ xs body acc).
Proof.
  intros Hb. induction xs as [|x xs IH]; intros acc; simpl.
  - apply (preserves_ret acc).
  - apply (preserves_bind (body x acc)); [apply Hb|apply IH].
Qed.
End preserves.

Global Instance same_mapping_refl : Reflexive same_mapping.
Proof. by intros σ. Qed.

Global Instance same_mapping_trans : Transitive same_mapping.
Proof. unfold same_mapping. intros σ1 σ2 σ3 H1 H2. congruence. Qed.

Lemma same_mapping_get_heap : preserves same_mapping get_heap.
Proof. by intros σ. Qed.
Lemma same_mapping_put_heap h : preserves same_mapping (put_heap h).
Proof. by intros σ. Qed.
Lemma same_mapping_call c : preserves same_mapping (call c).
Proof. by intros σ. Qed.
Lemma same_mapping_read_atom l : preserves same_mapping (read_atom l).
Proof. by intros σ. Qed.
Lemma same_mapping_read_bond l : preserves same_mapping (read_bond l).
Proof. by intros σ. Qed.
Lemma same_mapping_new_atom a : preserves same_mapping (new_atom a).
Proof. by intros σ. Qed.
Lemma same_mapping_new_bond b : preserves same_mapping (new_bond b).
Proof. by intros σ. Qed.
Lemma same_mapping_mapping_get n : preserves same_mapping (mapping_get n).
Proof. by intros σ. Qed.
Lemma same_mapping_get_mapping : preserves same_mapping get_mapping.
Proof. by intros σ. Qed.
Lemma same_mapping_mapping_subscript n : preserves same_mapping (mapping_subscript n).
Proof. intros σ. unfold mapping_subscript. by destruct (mapping σ !! n). Qed.
Lemma same_mapping_write_atom l f : preserves same_mapping (write_atom l f).
Proof. by intros σ. Qed.
Lemma same_mapping_write_bond l f : preserves same_mapping (write_bond l f).
Proof. by intros σ. Qed.
Lemma same_mapping_index {K} `{Countable K} {V} (d : gmap K V) k :
  preserves same_mapping (index d k).
Proof. by intros σ. Qed.

#[global] Hint Resolve preserves_ret preserves_raise preserves_lift
  same_mapping_get_heap same_mapping_put_heap same_mapping_call same_mapping_read_atom
  same_mapping_read_bond same_mapping_new_atom same_mapping_new_bond
  same_mapping_mapping_get same_mapping_get_mapping same_mapping_mapping_subscript
  same_mapping_write_atom same_mapping_write_bond same_mapping_index : preserves.
#[global] Hint Extern 2 (preserves _ (_ ≫= _)) =>
  apply preserves_bind; [typeclasses eauto..| |intros ?] : preserves.
#[global] Hint Extern 2 (preserves _ (for_ _ _ _)) =>
  apply preserves_for; [typeclasses eauto..|intros ? ?] : preserves.
#[global] Hint Extern 3 (preserves _ (match ?x with _ => _ end)) =>
  destruct x : preserves.
#[global] Hint Extern 1 (preserves _ (_ _)) => progress simpl : preserves.

Lemma same_mapping_set_bond n m l st : preserves same_mapping (set_bond n m l st).
Proof. unfold set_bond. auto 10 with preserves. Qed.

Lemma same_mapping_store_atom m a st : preserves same_mapping (store_atom m a st).
Proof. unfold store_atom. auto 10 with preserves. Qed.

Lemma same_mapping_back_link n m st : preserves same_mapping (back_link n m st).
Proof. unfold back_link. pose proof same_mapping_set_bond. auto 10 with preserves. Qed.

Lemma same_mapping_host_bond_stereo bonds n m :
  preserves same_mapping (host_bond_stereo bonds n m).
Proof. unfold host_bond_stereo. auto 10 with preserves. Qed.

#[global] Hint Resolve same_mapping_set_bond same_mapping_store_atom same_mapping_back_link
  same_mapping_host_bond_stereo : preserves.

Lemma same_mapping_patch_bond bonds n m rb st :
  preserves same_mapping (patch_bond bonds n m rb st).
Proof. unfold patch_bond. auto 20 with preserves. Qed.

Lemma same_mapping_patch_bonds bonds rep st :
  preserves same_mapping (patch_bonds bonds rep st).
Proof.
  unfold patch_bonds. apply (preserves_for same_mapping). intros [k bs] acc.
  apply (preserves_bind same_mapping); [auto with preserves|]. intros k'.
  apply (preserves_for same_mapping). intros [m rb] acc'. apply same_mapping_patch_bond.
Qed.

Lemma same_mapping_carry_atoms atoms pa td st :
  preserves same_mapping (carry_atoms atoms pa td st).
Proof.
  unfold carry_atoms. apply (preserves_for same_mapping). intros [n l] acc.
  auto 20 with preserves.
Qed.

Lemma same_mapping_carry_bond pa td n m l st :
  preserves same_mapping (carry_bond pa td n m l st).
Proof. unfold carry_bond. auto 20 with preserves. Qed.

Lemma same_mapping_carry_bonds bonds pa td st :
  preserves same_mapping (carry_bonds bonds pa td st).
Proof.
  unfold carry_bonds. apply (preserves_for same_mapping). intros [n bs] acc.
  case_decide; [auto with preserves|].
  apply (preserves_for same_mapping). intros [m l] acc'. apply same_mapping_carry_bond.
Qed.

Lemma same_mapping_post_assembly E new : preserves same_mapping (post_assembly E new).
Proof.
  unfold post_assembly. apply (preserves_bind same_mapping); [|auto 20 with preserves].
  apply (preserves_for same_mapping). intros [n l] acc. auto 20 with preserves.
Qed.

Lemma same_mapping_translate_atom E structure new n :
  preserves same_mapping (translate_atom E structure new n).
Proof. unfold translate_atom. auto 30 with preserves. Qed.

Lemma same_mapping_translate_bond E structure new nm :
  preserves same_mapping (translate_bond E structure new nm).
Proof. unfold translate_bond. auto 30 with preserves. Qed.

Lemma same_mapping_translate_stereo E structure new ma mb :
  preserves same_mapping (translate_stereo E structure new ma mb).
Proof.
  unfold translate_stereo.
  pose proof same_mapping_translate_atom. pose proof same_mapping_translate_bond.
  auto 20 with preserves.
Qed.

Lemma same_mapping_finalize E self new : preserves same_mapping (finalize E self new).
Proof. unfold finalize. auto 30 with preserves. Qed.

(** ** What the patcher does to the caller's mapping *)

Lemma foldl_max_le k ks : k ≤ foldl Z.max k ks ∧ ∀ j, j ∈ ks → j ≤ foldl Z.max k ks.
Proof.
  revert k. induction ks as [|x ks IH]; intros k; simpl.
  { split; [lia|]. intros j Hj. by apply elem_of_nil in Hj. }
  destruct (IH (Z.max k x)) as [H1 H2]. split; [lia|].
  intros j Hj. apply elem_of_cons in Hj as [->|Hj]; [lia|by apply H2].
Qed.

Lemma max_key_spec atoms mx :
  max_key atoms = Ok mx → ∀ j, j ∈ Dict.dom atoms → j ≤ mx.
Proof.
  unfold max_key, Dict.dom. destruct (Dict.keys atoms) as [|k ks]; [done|].
  intros [= <-] j Hj. apply elem_of_list_to_set, elem_of_cons in Hj.
  destruct (foldl_max_le k ks) as [H1 H2]. destruct Hj as [->|Hj]; [done|by apply H2].
Qed.

Lemma mapping_grows_refl mx ks mp : mapping_grows mx ks mp mp.
Proof. intros k. by left. Qed.

Lemma mapping_grows_step mx mx1 n ks mp mp1 mp2 :
  mx ≤ mx1 →
  mapping_grows mx [n] mp mp1 → mapping_grows mx1 ks mp1 mp2 →
  mapping_grows mx (n :: ks) mp mp2.
Proof.
  intros Hle H1 H2 k. destruct (H1 k) as [E1|(T1 & K1 & m1 & E1 & L1)].
  - destruct (H2 k) as [E2|(T2 & K2 & m2 & E2 & L2)].
    + left. congruence.
    + right. rewrite <- E1. split; [done|]. split; [set_solver|]. exists m2. split; [done|lia].
  - right. split; [done|]. split; [set_solver|].
    destruct (H2 k) as [E2|(T2 & K2 & m2 & E2 & L2)].
    + exists m1. split; [congruence|done].
    + exists m2. split; [done|lia].
Qed.

Lemma patch_atom_grows atoms n ra st σ :
  let out := patch_atom atoms n ra st σ in
  mapping_grows (max_atom st) [n] (mapping σ) (mapping out.2) ∧
  ∀ st', out.1 = Ok st' → max_atom st ≤ max_atom st'.
Proof.
  destruct (patch_atom_mapping atoms n ra st σ) as [Hm Hx]. simpl in *.
  unfold alloc_step in *. simpl in *.
  destruct (allocates ra (mapping σ !! n)) eqn:Ha; simpl in *.
  - split; [|intros st' Hst; rewrite (Hx st' Hst); lia].
    intros k. rewrite Hm. destruct (decide (k = n)) as [->|Hk].
    + right. split; [|split; [set_solver|]].
      * unfold allocates in Ha. destruct ra, (truthy (mapping σ !! n)); done.
      * exists (max_atom st + 1). rewrite lookup_insert_eq. split; [done|lia].
    + left. by rewrite lookup_insert_ne.
  - split; [|intros st' Hst; rewrite (Hx st' Hst); lia].
    rewrite Hm. apply mapping_grows_refl.
Qed.

Lemma patch_atoms_grows atoms ras : ∀ st σ,
  mapping_grows (max_atom st) (Dict.keys ras) (mapping σ)
    (mapping (for_ ras (λ '(n, ra) st, patch_atom atoms n ra st) st σ).2).
Proof.
  induction ras as [|[n ra] ras IH]; intros st σ; simpl.
  { apply mapping_grows_refl. }
  destruct (patch_atom_grows atoms n ra st σ) as [Hg Hx]. unfold_M.
  destruct (patch_atom atoms n ra st σ) as [[st1|e] σ1]; simpl in *.
  - eapply mapping_grows_step; [apply (Hx st1 eq_refl)|done|apply IH].
  - intros k. destruct (Hg k) as [?|(? & ? & ?)]; [by left|right].
    split; [done|]. split; [set_solver|done].
Qed.

#[global] Hint Resolve same_mapping_patch_bonds same_mapping_carry_atoms
  same_mapping_carry_bonds same_mapping_post_assembly same_mapping_translate_stereo
  same_mapping_finalize : preserves.

Lemma bind_run {A B} (m : M A) (f : A → M B) σ :
  (m ≫= f) σ = match m σ with (Ok a, σ1) => f a σ1 | (Err e, σ1) => (Err e, σ1) end.
Proof. unfold_M. by destruct (m σ) as [[a|e] σ1]. Qed.

Lemma grows_then_same mx ks mp σ1 {A} (m : M A) :
  preserves same_mapping m →
  mapping_grows mx ks mp (mapping σ1) → mapping_grows mx ks mp (mapping (m σ1).2).
Proof. intros Hm Hg. by rewrite (Hm σ1). Qed.

Lemma assemble_grows set_iter self structure σ :
  match max_key (_atoms structure) with
  | Ok mx =>
      mapping_grows mx (Dict.keys (r_atoms (_replacement self))) (mapping σ)
        (mapping (assemble set_iter self structure σ).2)
  | Err _ => mapping (assemble set_iter self structure σ).2 = mapping σ
  end.
Proof.
  unfold assemble. rewrite bind_run. simpl. rewrite bind_run. unfold lift at 1.
  destruct (_get_deleted set_iter self structure (mapping σ)) as [d|e].
  2:{ simpl. destruct (max_key _); [apply mapping_grows_refl|done]. }
  rewrite bind_run. unfold lift at 1.
  destruct (max_key (_atoms structure)) as [mx|e]; [|done].
  rewrite bind_run.
  pose proof (patch_atoms_grows (_atoms structure) (r_atoms (_replacement self))
                (init_locals mx) σ) as Hg.
  unfold patch_atoms.
  destruct (for_ (r_atoms (_replacement self)) _ (init_locals mx) σ) as [[st1|e] σ1];
    simpl in Hg; [|done].
  apply grows_then_same; [|done]. auto 20 with preserves.
Qed.

(** X10 ([_patcher], lines 72-199): whether the patcher returns or raises,
    the caller's mapping is changed only at ids of replacement atoms that
    had no entry (or the entry 0), and each of them gets a number above
    every atom number of the host. Every other entry is left as it was. *)
Theorem patcher_mapping_frame E set_iter self structure σ k :
  let σ' := (_patcher E set_iter self structure σ).2 in
  mapping σ' !! k = mapping σ !! k ∨
  (truthy (mapping σ !! k) = None ∧
   k ∈ Dict.keys (r_atoms (_replacement self)) ∧
   ∃ m, mapping σ' !! k = Some m ∧ ∀ j, j ∈ Dict.dom (_atoms structure) → j < m).
Proof.
  simpl. unfold _patcher. rewrite bind_run.
  pose proof (assemble_grows set_iter self structure σ) as Hg.
  assert (mapping
            (match assemble set_iter self structure σ with
             | (Ok a, σ1) =>
                 (let '(st, _) := a in
                  post_assembly E (new_graph st);;
                  translate_stereo E structure (new_graph st) (stereo_atoms st)
                    (stereo_bonds st);;
                  finalize E self (new_graph st);; mret (new_graph st)) σ1
             | (Err e, σ1) => (Err e, σ1)
             end).2 = mapping (assemble set_iter self structure σ).2) as ->.
  { destruct (assemble set_iter self structure σ) as [[[st d]|e] σ1]; [|done].
    simpl. assert (preserves same_mapping
      (post_assembly E (new_graph st);;
       translate_stereo E structure (new_graph st) (stereo_atoms st) (stereo_bonds st);;
       finalize E self (new_graph st);; mret (new_graph st))) as Hp
      by auto 20 with preserves.
    apply (Hp σ1). }
  destruct (max_key (_atoms structure)) as [mx|e] eqn:Hmx; [|left; by rewrite Hg].
  destruct (Hg k) as [?|(? & ? & m & ? & ?)]; [by left|right].
  split; [done|]. split; [done|]. exists m. split; [done|].
  intros j Hj. apply (max_key_spec _ _ Hmx) in Hj. lia.
Qed.

(** ** The assembly allocates, it does not overwrite *)

Lemma extends_get_heap : preserves extends get_heap.
Proof. intros σ. reflexivity. Qed.
Lemma extends_read_atom l : preserves extends (read_atom l).
Proof. intros σ. reflexivity. Qed.
Lemma extends_read_bond l : preserves extends (read_bond l).
Proof. intros σ. reflexivity. Qed.
Lemma extends_mapping_get n : preserves extends (mapping_get n).
Proof. intros σ. reflexivity. Qed.
Lemma extends_get_mapping : preserves extends get_mapping.
Proof. intros σ. reflexivity. Qed.
Lemma extends_mapping_subscript n : preserves extends (mapping_subscript n).
Proof. intros σ. reflexivity. Qed.
Lemma extends_mapping_set n m : preserves extends (mapping_set n m).
Proof. by intros σ. Qed.
Lemma extends_new_atom a : preserves extends (new_atom a).
Proof. intros σ. split_and!; [apply insert_fresh_subseteq|done..]. Qed.
Lemma extends_new_bond b : preserves extends (new_bond b).
Proof. intros σ. split_and!; [done|apply insert_fresh_subseteq|done]. Qed.

#[global] Hint Resolve extends_get_heap extends_read_atom extends_read_bond
  extends_mapping_get extends_get_mapping extends_mapping_subscript extends_mapping_set
  extends_new_atom extends_new_bond : preserves.

Lemma extends_set_bond n m l st : preserves extends (set_bond n m l st).
Proof. unfold set_bond. auto 10 with preserves. Qed.

Lemma extends_store_atom m a st : preserves extends (store_atom m a st).
Proof. unfold store_atom. auto 10 with preserves. Qed.

Lemma extends_back_link n m st : preserves extends (back_link n m st).
Proof. unfold back_link. pose proof extends_set_bond. auto 10 with preserves. Qed.

Lemma extends_host_bond_stereo bonds n m : preserves extends (host_bond_stereo bonds n m).
Proof. unfold host_bond_stereo. auto 10 with preserves. Qed.

#[global] Hint Resolve extends_set_bond extends_store_atom extends_back_link
  extends_host_bond_stereo : preserves.

Lemma extends_patch_atom atoms n ra st : preserves extends (patch_atom atoms n ra st).
Proof. unfold patch_atom. auto 30 with preserves. Qed.

Lemma extends_patch_atoms atoms rep st : preserves extends (patch_atoms atoms rep st).
Proof.
  unfold patch_atoms. apply (preserves_for extends). intros [n ra] acc.
  apply extends_patch_atom.
Qed.

(** a bond made at line 134 is new: giving it the label of the template
    (line 136) overwrites nothing that was there before *)
Lemma extends_labelled_bond b s (f : loc → M Locals) :
  (∀ l, preserves extends (f l)) →
  preserves extends (l ← new_bond b; st ← f l; write_bond l (set_bstereo s);; mret st).
Proof.
  intros Hf σ. rewrite bind_run. simpl.
  set (l := fresh (dom (bond_obj (heap σ)))).
  set (σ1 := {| heap := {| atom_obj := atom_obj (heap σ);
                           bond_obj := <[l := b]> (bond_obj (heap σ)) |};
                mapping := mapping σ; calls := calls σ |}).
  assert (extends σ σ1) as H01.
  { split_and!; [done|apply insert_fresh_subseteq|done]. }
  pose proof (Hf l σ1) as H12. rewrite bind_run.
  destruct (f l σ1) as [[st|e] σ2]; simpl in *; [|by etrans].
  destruct H01 as (Ha1 & Hb1 & Hc1), H12 as (Ha2 & Hb2 & Hc2).
  split_and!; simpl; [by etrans| |congruence].
  apply map_subseteq_spec. intros k x Hk.
  assert (k ≠ l) as Hkl.
  { intros ->. apply (is_fresh (dom (bond_obj (heap σ)))). by apply elem_of_dom. }
  rewrite lookup_insert_ne by done.
  eapply lookup_weaken; [|exact Hb2]. eapply lookup_weaken; [|exact Hb1]. done.
Qed.

Lemma extends_patch_bond bonds n m rb st : preserves extends (patch_bond bonds n m rb st).
Proof.
  unfold patch_bond.
  apply (preserves_bind extends); [auto with preserves|]. intros m'.
  apply (preserves_bind extends); [auto with preserves|]. intros row.
  destruct (Dict.mem n row); [auto with preserves|].
  destruct (tb_stereo rb) as [s|]; cbv iota.
  - apply (extends_labelled_bond _ (Some s) (λ l, set_bond n m' l st)).
    intros l. apply extends_set_bond.
  - auto 20 with preserves.
Qed.

Lemma extends_patch_bonds bonds rep st : preserves extends (patch_bonds bonds rep st).
Proof.
  unfold patch_bonds. apply (preserves_for extends). intros [k bs] acc.
  apply (preserves_bind extends); [auto with preserves|]. intros k'.
  apply (preserves_for extends). intros [m rb] acc'. apply extends_patch_bond.
Qed.

Lemma extends_carry_atoms atoms pa td st : preserves extends (carry_atoms atoms pa td st).
Proof.
  unfold carry_atoms. apply (preserves_for extends). intros [n l] acc.
  auto 20 with preserves.
Qed.

Lemma extends_carry_bond pa td n m l st : preserves extends (carry_bond pa td n m l st).
Proof. unfold carry_bond. auto 20 with preserves. Qed.

Lemma extends_carry_bonds bonds pa td st : preserves extends (carry_bonds bonds pa td st).
Proof.
  unfold carry_bonds. apply (preserves_for extends). intros [n bs] acc.
  case_decide; [auto with preserves|].
  apply (preserves_for extends). intros [m l] acc'. apply extends_carry_bond.
Qed.

#[global] Hint Resolve extends_patch_atoms extends_patch_bonds extends_carry_atoms
  extends_carry_bonds : preserves.

Lemma extends_assemble set_iter self structure :
  preserves extends (assemble set_iter self structure).
Proof. unfold assemble. auto 30 with preserves. Qed.

(** X11 ([_patcher], lines 73-163): while the tables of the new graph are
    built, whether this ends normally or with an error, no atom or bond
    object that was in the store before is changed or removed (the host
    is only read, its atoms and bonds are copied), and no routine of the
    graph library is called. *)
Theorem assemble_keeps_host set_iter self structure σ :
  let σ' := (assemble set_iter self structure σ).2 in
  (∀ l a, atom_obj (heap σ) !! l = Some a → atom_obj (heap σ') !! l = Some a) ∧
  (∀ l b, bond_obj (heap σ) !! l = Some b → bond_obj (heap σ') !! l = Some b) ∧
  calls σ' = calls σ.
Proof.
  destruct (extends_assemble set_iter self structure σ) as (Ha & Hb & Hc).
  simpl. split_and!; [|..|done].
  - intros l a Hl. by eapply lookup_weaken.
  - intros l b Hl. by eapply lookup_weaken.
Qed.

(** ** The atoms carried over *)

Lemma copy_all a : copy true true a = a.
Proof. by destruct a. Qed.

Lemma carry_atoms_run atoms pa td : ∀ st σ,
  NoDup (Dict.keys atoms) →
  (∀ n l, (n, l) ∈ atoms → l ∈ dom (atom_obj (heap σ))) →
  ∃ st' σ', carry_atoms atoms pa td st σ = (Ok st', σ') ∧
    extends σ σ' ∧ mapping σ' = mapping σ ∧
    max_atom st' = max_atom st ∧ stereo_atoms st' = stereo_atoms st ∧
    stereo_bonds st' = stereo_bonds st ∧
    (∀ n, n ∉ Dict.dom atoms ∨ n ∈ pa ∨ n ∈ td →
          Dict.get (natoms st') n = Dict.get (natoms st) n ∧
          Dict.get (nbonds st') n = Dict.get (nbonds st) n) ∧
    (∀ n l, (n, l) ∈ atoms → n ∉ pa → n ∉ td →
       ∃ l', Dict.get (natoms st') n = Some l' ∧ l' ∉ dom (atom_obj (heap σ)) ∧
             atom_obj (heap σ') !! l' = Some (atom_at (heap σ) l) ∧
             Dict.get (nbonds st') n = Some []).
Proof.
  unfold carry_atoms. induction atoms as [|[n l] atoms IH]; intros st σ Hnd Hloc.
  { exists st, σ. simpl. split_and!; try done.
    intros n l Hin. by apply elem_of_nil in Hin. }
  simpl in Hnd. apply NoDup_cons in Hnd as [Hn Hnd].
  simpl. rewrite bind_run.
  destruct (decide (n ∉ pa ∧ n ∉ td)) as [[Hpa Htd]|Hskip].
  - rewrite bind_run. change (read_atom l σ) with (Ok (atom_at (heap σ) l), σ).
    cbv beta iota.
    destruct (store_atom_state n (copy true true (atom_at (heap σ) l)) st σ)
      as (l1 & -> & Hl1). cbv beta iota.
    match goal with |- context [for_ atoms _ ?st1 ?σ1] =>
      destruct (IH st1 σ1 Hnd) as (st' & σ' & -> & Hext & Hmap & Hmax & Hsa & Hsb & Hoth & Hcar)
    end.
    { intros k lk Hk. simpl. rewrite dom_insert. apply elem_of_union. right.
      eapply Hloc. by right. }
    simpl in *. exists st', σ'. split; [done|].
    assert (l1 ∉ dom (atom_obj (heap σ))) as Hfresh by (subst l1; apply is_fresh).
    assert (extends σ σ') as Hext'.
    { destruct Hext as (Ha & Hb & Hc). simpl in *. split_and!; [|done..].
      etrans; [|exact Ha]. apply insert_subseteq. by apply not_elem_of_dom. }
    split_and!; try done.
    + intros k Hk.
      assert (k ≠ n) as Hkn.
      { intros ->. destruct Hk as [Hk|[?|?]]; [|done..].
        apply Hk. apply elem_of_list_to_set. simpl. by left. }
      destruct (Hoth k) as [H1 H2].
      { destruct Hk as [Hk|?]; [left|by right]. intros Hk'. apply Hk.
        apply elem_of_list_to_set. simpl. right. by apply elem_of_list_to_set in Hk'. }
      rewrite H1, H2, !dict_get_set_ne by done. done.
    + intros k lk Hk Hkpa Hktd. apply elem_of_cons in Hk as [[= -> ->]|Hk].
      * destruct (Hoth n) as [H1 H2].
        { left. intros Hk'. apply Hn. by apply elem_of_list_to_set in Hk'. }
        exists l1. rewrite H1, H2, !dict_get_set_eq. split_and!; try done.
        destruct Hext as (Ha & _). simpl in Ha.
        eapply lookup_weaken; [|exact Ha]. rewrite lookup_insert_eq. by rewrite copy_all.
      * destruct (Hcar k lk Hk Hkpa Hktd) as (l' & G1 & G2 & G3 & G4).
        exists l'. split_and!; try done.
        -- intros Hd. apply G2. simpl. rewrite dom_insert. set_solver.
        -- rewrite G3. f_equal. unfold atom_at. simpl.
           assert (lk ≠ l1) as Hne.
           { intros ->. apply Hfresh. eapply Hloc. by right. }
           by rewrite lookup_insert_ne.
  - simpl.
    destruct (IH st σ Hnd) as (st' & σ' & -> & Hext & Hmap & Hmax & Hsa & Hsb & Hoth & Hcar).
    { intros k lk Hk. eapply Hloc. by right. }
    exists st', σ'. split_and!; try done.
    + intros k Hk. destruct (decide (k = n)) as [->|Hkn].
      * apply Hoth. left. intros Hk'. apply Hn. by apply elem_of_list_to_set in Hk'.
      * apply Hoth. destruct Hk as [Hk|?]; [left|by right]. intros Hk'. apply Hk.
        apply elem_of_list_to_set. simpl. right. by apply elem_of_list_to_set in Hk'.
    + intros k lk Hk Hkpa Hktd. apply elem_of_cons in Hk as [[= -> ->]|Hk]; [tauto|].
      by apply Hcar.
Qed.

(** X12 ([_patcher], lines 143-146): the loop that adds the unmatched or
    masked atoms always completes; it adds to the new atom table exactly
    the host atoms that are neither patched nor to delete, each as a new
    object with the fields of the host atom (hydrogen count and stereo
    label included) and with an empty bond row, and the host atom itself
    is left as it was. *)
Theorem carry_atoms_copies atoms pa td st σ :
  NoDup (Dict.keys atoms) →
  (∀ n l, (n, l) ∈ atoms → l ∈ dom (atom_obj (heap σ))) →
  ∃ st' σ', carry_atoms atoms pa td st σ = (Ok st', σ') ∧
    (∀ n, n ∈ Dict.dom (natoms st') ↔
          n ∈ Dict.dom (natoms st) ∨ (n ∈ Dict.dom atoms ∧ n ∉ pa ∧ n ∉ td)) ∧
    (∀ n l, (n, l) ∈ atoms → n ∉ pa → n ∉ td →
       ∃ l', Dict.get (natoms st') n = Some l' ∧ l' ≠ l ∧
             atom_at (heap σ') l' = atom_at (heap σ) l ∧
             atom_at (heap σ') l = atom_at (heap σ) l ∧
             Dict.get (nbonds st') n = Some []).
Proof.
  intros Hnd Hloc.
  destruct (carry_atoms_run atoms pa td st σ Hnd Hloc)
    as (st' & σ' & Hrun & Hext & _ & _ & _ & _ & Hoth & Hcar).
  exists st', σ'. split; [done|]. split.
  - intros n.
    rewrite <- (dict_get_is_Some (natoms st')), <- (dict_get_is_Some (natoms st)).
    destruct (decide (n ∈ Dict.dom atoms ∧ n ∉ pa ∧ n ∉ td)) as [(Hn & Hpa & Htd)|Hno].
    + pose proof Hn as Hn'. apply dict_get_is_Some in Hn' as [l Hl].
      apply dict_get_Some in Hl.
      destruct (Hcar n l Hl Hpa Htd) as (l' & -> & _). split; [|by eexists].
      intros _. by right.
    + destruct (Hoth n) as [-> _]; [|tauto].
      destruct (decide (n ∈ Dict.dom atoms)); [|tauto].
      destruct (decide (n ∈ pa)); [tauto|]. destruct (decide (n ∈ td)); tauto.
  - intros n l Hin Hpa Htd.
    destruct (Hcar n l Hin Hpa Htd) as (l' & G1 & G2 & G3 & G4).
    pose proof (Hloc n l Hin) as Hl. apply elem_of_dom in Hl as [a Ha].
    destruct Hext as (Hsub & _).
    exists l'. split_and!; try done.
    + intros ->. apply G2. apply elem_of_dom. eauto.
    + unfold atom_at at 1. by rewrite G3.
    + unfold atom_at. by rewrite (lookup_weaken _ _ _ _ Ha Hsub), Ha.
Qed.

Lemma carry_atoms_copies_witness :
  ∃ st' σ', carry_atoms (_atoms methane) ∅ ∅ (init_locals 1) methane_state = (Ok st', σ') ∧
    (∀ n, n ∈ Dict.dom (natoms st') ↔
          n ∈ Dict.dom (natoms (init_locals 1)) ∨
          (n ∈ Dict.dom (_atoms methane) ∧ n ∉ (∅ : gset Z) ∧ n ∉ (∅ : gset Z))) ∧
    (∀ n l, (n, l) ∈ _atoms methane → n ∉ (∅ : gset Z) → n ∉ (∅ : gset Z) →
       ∃ l', Dict.get (natoms st') n = Some l' ∧ l' ≠ l ∧
             atom_at (heap σ') l' = atom_at (heap methane_state) l ∧
             atom_at (heap σ') l = atom_at (heap methane_state) l ∧
             Dict.get (nbonds st') n = Some []).
Proof.
  apply (carry_atoms_copies (_atoms methane) ∅ ∅ (init_locals 1) methane_state).
  - simpl. apply NoDup_singleton.
  - intros n l Hin. simpl in Hin. apply list_elem_of_singleton in Hin as [= -> ->].
    vm_compute. reflexivity.
Defined.

(** ** The numbers of the atoms of the new graph *)

(** X13 ([_patcher], lines 80-124): after the loop over the replacement
    atoms the two tables of the new graph have the same keys. A key is
    either the number of a host atom that the mapping gives to a
    replacement atom, or one of the new numbers; the new numbers are the
    consecutive integers that follow the largest atom number of the host,
    without a gap, and none of them is a host atom. *)
Theorem patch_atoms_numbers atoms rep mx σ st' σ' :
  max_key atoms = Ok mx →
  patch_atoms atoms rep (init_locals mx) σ = (Ok st', σ') →
  Dict.dom (natoms st') = Dict.dom (nbonds st') ∧
  mx ≤ max_atom st' ∧
  (∀ m, m ∈ Dict.dom (natoms st') →
        (m ∈ Dict.dom atoms ∧
         ∃ n, n ∈ Dict.keys (r_atoms rep) ∧ mapping σ !! n = Some m) ∨
        mx < m ≤ max_atom st') ∧
  (∀ m, mx < m ≤ max_atom st' → m ∈ Dict.dom (natoms st') ∧ m ∉ Dict.dom atoms).
Proof.
  intros Hmx Hrun. unfold patch_atoms in Hrun.
  apply patch_atoms_keys in Hrun as (Hle & matched & Hna & Hnb & Hmatched).
  2:{ simpl. by apply max_key_spec. }
  simpl in *. rewrite Hna, Hnb. split; [done|]. split; [done|]. split.
  - intros m Hm. apply elem_of_union in Hm as [Hm|Hm].
    + apply elem_of_union in Hm as [Hm|Hm]; [set_solver|]. left. by apply Hmatched.
    + right. by apply elem_of_fresh_ids in Hm.
  - intros m Hm. split.
    + apply elem_of_union. right. by apply elem_of_fresh_ids.
    + intros Hin. apply (max_key_spec _ _ Hmx) in Hin. lia.
Qed.

Lemma patch_atoms_numbers_witness :
  ∃ st' σ',
    patch_atoms (_atoms methane) add_nitrogen (init_locals 1) methane_state = (Ok st', σ') ∧
    Dict.dom (natoms st') = Dict.dom (nbonds st') ∧ 1 ≤ max_atom st' ∧
    (∀ m, m ∈ Dict.dom (natoms st') →
          (m ∈ Dict.dom (_atoms methane) ∧
           ∃ n, n ∈ Dict.keys (r_atoms add_nitrogen) ∧ mapping methane_state !! n = Some m) ∨
          1 < m ≤ max_atom st') ∧
    (∀ m, 1 < m ≤ max_atom st' →
          m ∈ Dict.dom (natoms st') ∧ m ∉ Dict.dom (_atoms methane)).
Proof.
  eexists _, _. split; [reflexivity|].
  eapply (patch_atoms_numbers (_atoms methane) add_nitrogen 1 methane_state); reflexivity.
Defined.

(** ** Shared bond objects *)

Lemma for_Ok_inv {X A} (I : A → Prop) (xs : list X) (body : X → A → M A) :
  (∀ x acc σ acc' σ', x ∈ xs → I acc → body x acc σ = (Ok acc', σ') → I acc') →
  ∀ acc σ acc' σ', I acc → for_ xs body acc σ = (Ok acc', σ') → I acc'.
Proof.
  induction xs as [|x xs IH]; intros Hb acc σ acc' σ' Hi; simpl.
  { by intros [= <- <-]. }
  rewrite bind_run. destruct (body x acc σ) as [[acc1|e] σ1] eqn:H1; [|done].
  apply IH; [|eapply Hb; [left|done..]].
  intros x' a s a' s' Hx'. apply Hb. by right.
Qed.

Lemma cell_set_row nb n row a b :
  cell (Dict.set n row nb) a b = if decide (a = n) then Dict.get row b else cell nb a b.
Proof.
  unfold cell. destruct (decide (a = n)) as [->|Hne].
  - by rewrite dict_get_set_eq.
  - by rewrite dict_get_set_ne.
Qed.

Lemma shared_empty_row nb n : shared_bonds nb → shared_bonds (Dict.set n [] nb).
Proof.
  intros Hs a b l l'. rewrite !cell_set_row.
  destruct (decide (a = n)); [done|]. destruct (decide (b = n)); [done|]. apply Hs.
Qed.

Lemma shared_set_cell nb n m l row :
  shared_bonds nb → Dict.get nb n = Some row →
  (∀ l', cell nb m n = Some l' → l' = l) →
  shared_bonds (Dict.set n (Dict.set m l row) nb).
Proof.
  intros Hs Hrow Hback a b la lb. rewrite !cell_set_row.
  assert (∀ k, Dict.get (Dict.set m l row) k =
               if decide (k = m) then Some l else cell nb n k) as Hget.
  { intros k. unfold cell. rewrite Hrow. simpl. destruct (decide (k = m)) as [->|Hk].
    - by rewrite dict_get_set_eq.
    - by rewrite dict_get_set_ne. }
  destruct (decide (a = n)) as [->|Ha], (decide (b = n)) as [->|Hb]; rewrite ?Hget.
  - congruence.
  - destruct (decide (b = m)) as [->|Hbm].
    + intros [= <-] Hl. by rewrite (Hback _ Hl).
    + apply Hs.
  - destruct (decide (a = m)) as [->|Ham].
    + intros Hl [= <-]. by rewrite (Hback _ Hl).
    + apply Hs.
  - apply Hs.
Qed.

Lemma set_bond_shared n m l st σ st' σ' :
  shared_bonds (nbonds st) →
  (∀ l', cell (nbonds st) m n = Some l' → l' = l) →
  set_bond n m l st σ = (Ok st', σ') →
  shared_bonds (nbonds st') ∧ stereo_atoms st' = stereo_atoms st.
Proof.
  intros Hs Hback. unfold set_bond, subscript. unfold_M.
  destruct (Dict.get (nbonds st) n) as [row|] eqn:Hrow; simpl; [|done].
  intros [= <- <-]. simpl. split; [|done]. by apply shared_set_cell.
Qed.

Lemma back_link_shared n m st σ st' σ' :
  shared_bonds (nbonds st) →
  back_link n m st σ = (Ok st', σ') → shared_bonds (nbonds st').
Proof.
  intros Hs. unfold back_link. rewrite !bind_run. unfold lift, subscript.
  destruct (Dict.get (nbonds st) m) as [row|] eqn:Hrow; [|done].
  destruct (Dict.get row n) as [l|] eqn:Hl; [|done].
  intros H. eapply set_bond_shared in H as [? _]; [done..|].
  intros l'. unfold cell. rewrite Hrow. simpl. congruence.
Qed.

Lemma not_mem_cell nb m n row :
  Dict.get nb m = Some row → Dict.mem n row = false → cell nb m n = None.
Proof.
  intros Hrow Hmem. unfold cell. rewrite Hrow. simpl.
  destruct (Dict.get row n) eqn:E; [|done].
  assert (Dict.mem n row = true); [|congruence].
  apply dict_mem_dom, dict_get_is_Some. eauto.
Qed.

Lemma patch_bond_shared bonds n m rb st σ st' σ' :
  shared_bonds (nbonds st) →
  patch_bond bonds n m rb st σ = (Ok st', σ') → shared_bonds (nbonds st').
Proof.
  intros Hs. unfold patch_bond. rewrite bind_run. unfold mapping_subscript at 1.
  destruct (mapping σ !! m) as [m'|]; [|done].
  rewrite bind_run. unfold lift at 1, subscript at 1.
  destruct (Dict.get (nbonds st) m') as [row|] eqn:Hrow; [|done].
  destruct (Dict.mem n row) eqn:Hmem; [by apply back_link_shared|].
  rewrite bind_run. simpl. rewrite bind_run.
  match goal with |- context [set_bond n m' ?l st ?σ1] =>
    destruct (set_bond n m' l st σ1) as [[st1|e] σ1'] eqn:Hset; [|done];
    apply set_bond_shared in Hset as [Hs1 _]; [|done|]
  end.
  2:{ intros l'. by rewrite (not_mem_cell _ _ _ _ Hrow Hmem). }
  destruct (tb_stereo rb); [unfold_M; by intros [= <- <-]|].
  rewrite bind_run. unfold host_bond_stereo.
  destruct (Dict.get bonds n) as [sbn|]; [|unfold_M; by intros [= <- <-]].
  destruct (Dict.get sbn m'); [|unfold_M; by intros [= <- <-]].
  unfold_M. simpl. destruct (bstereo _); by intros [= <- <-].
Qed.

Lemma carry_bond_shared pa td n m l st σ st' σ' :
  shared_bonds (nbonds st) →
  carry_bond pa td n m l st σ = (Ok st', σ') → shared_bonds (nbonds st').
Proof.
  intros Hs. unfold carry_bond. case_decide; [unfold_M; by intros [= <- <-]|].
  rewrite bind_run. unfold lift at 1, subscript at 1.
  destruct (Dict.get (nbonds st) m) as [row|] eqn:Hrow; [|done].
  destruct (Dict.mem n row) eqn:Hmem; [by apply back_link_shared|].
  assert (∀ l', cell (nbonds st) m n = Some l' → ∀ l0 : loc, l' = l0) as Hback.
  { intros l'. by rewrite (not_mem_cell _ _ _ _ Hrow Hmem). }
  rewrite bind_run. unfold read_bond at 1. cbv beta iota.
  case_decide.
  - rewrite bind_run. simpl. rewrite bind_run.
    match goal with |- context [set_bond n m ?l1 st ?σ1] =>
      destruct (set_bond n m l1 st σ1) as [[st1|e] σ1'] eqn:Hset; [|done];
      apply set_bond_shared in Hset as [Hs1 _]; [|done|intros l' Hl'; by eapply Hback]
    end.
    unfold_M. by intros [= <- <-].
  - rewrite bind_run. simpl.
    intros Hset. apply set_bond_shared in Hset as [Hs1 _]; [done..|].
    intros l' Hl'. by eapply Hback.
Qed.

Lemma patch_atom_shared atoms n ra st σ st' σ' :
  shared_bonds (nbonds st) →
  patch_atom atoms n ra st σ = (Ok st', σ') → shared_bonds (nbonds st').
Proof.
  intros Hs H. apply patch_atom_ok in H as (m & a & _ & -> & _). by apply shared_empty_row.
Qed.

Lemma assemble_shared set_iter self structure σ st d σ' :
  assemble set_iter self structure σ = (Ok (st, d), σ') → shared_bonds (nbonds st).
Proof.
  unfold assemble. rewrite bind_run. simpl. rewrite bind_run. unfold lift at 1.
  destruct (_get_deleted _ _ _ _) as [d0|]; [|done].
  rewrite bind_run. unfold lift at 1. destruct (max_key _) as [mx|]; [|done].
  rewrite bind_run.
  destruct (patch_atoms _ _ _ σ) as [[st1|] σ1] eqn:H1; [|done].
  rewrite bind_run.
  destruct (patch_bonds _ _ st1 σ1) as [[st2|] σ2] eqn:H2; [|done].
  rewrite bind_run.
  destruct (carry_atoms _ _ d0 st2 σ2) as [[st3|] σ3] eqn:H3; [|done].
  rewrite bind_run.
  destruct (carry_bonds _ _ d0 st3 σ3) as [[st4|] σ4] eqn:H4; [|done].
  intros [= <- <- <-].
  assert (shared_bonds (nbonds st1)) as S1.
  { unfold patch_atoms in H1. revert H1. apply (for_Ok_inv (λ st, shared_bonds (nbonds st))).
    - intros [n ra] acc s acc' s' _. apply patch_atom_shared.
    - intros n m l l'. by unfold cell. }
  assert (shared_bonds (nbonds st2)) as S2.
  { unfold patch_bonds in H2. revert H2.
    apply (for_Ok_inv (λ st, shared_bonds (nbonds st))); [|done].
    intros [n bs] acc s acc' s' _ Hacc. rewrite bind_run.
    unfold mapping_subscript at 1. destruct (mapping s !! n) as [n'|]; [|done].
    apply (for_Ok_inv (λ st, shared_bonds (nbonds st))); [|done].
    intros [m rb] a1 s1 a2 s2 _. apply patch_bond_shared. }
  assert (shared_bonds (nbonds st3)) as S3.
  { unfold carry_atoms in H3. revert H3.
    apply (for_Ok_inv (λ st, shared_bonds (nbonds st))); [|done].
    intros [n l] acc s acc' s' _ Hacc. case_decide; [|unfold_M; by intros [= <- <-]].
    unfold_M. simpl. intros [= <- <-]. simpl. by apply shared_empty_row. }
  unfold carry_bonds in H4. revert H4.
  apply (for_Ok_inv (λ st, shared_bonds (nbonds st))); [|done].
  intros [n bs] acc s acc' s' _ Hacc. case_decide; [unfold_M; by intros [= <- <-]|].
  apply (for_Ok_inv (λ st, shared_bonds (nbonds st))); [|done].
  intros [m l] a1 s1 a2 s2 _. apply carry_bond_shared.
Qed.

(** X14 ([_patcher], lines 127-163): in the bond table of the graph that
    [_patcher] returns, a bond that is recorded at both of its ends is one
    object: [nbonds[n][m]] and [nbonds[m][n]] are the same reference, as
    the back-links of lines 131-132 and 155-156 intend. *)
Theorem patcher_shares_bonds E set_iter self structure σ new σ' n m l l' :
  _patcher E set_iter self structure σ = (Ok new, σ') →
  cell (_bonds new) n m = Some l → cell (_bonds new) m n = Some l' → l = l'.
Proof.
  unfold _patcher. rewrite bind_run.
  destruct (assemble set_iter self structure σ) as [[[st d]|] σ1] eqn:Ha; [|done].
  apply assemble_shared in Ha.
  rewrite bind_run. destruct (post_assembly _ _ σ1) as [[[]|] σ2]; [|done].
  rewrite bind_run. destruct (translate_stereo _ _ _ _ _ σ2) as [[[]|] σ3]; [|done].
  rewrite bind_run. destruct (finalize _ _ _ σ3) as [[[]|] σ4]; [|done].
  intros [= <- <-]. apply Ha.
Qed.

Lemma patcher_shares_bonds_witness :
  ∃ new σ' l l',
    _patcher ethene_externals elements same_carbon difluoroethene difluoroethene_state
      = (Ok new, σ') ∧
    cell (_bonds new) 1 2 = Some l ∧ cell (_bonds new) 2 1 = Some l' ∧ l = l'.
Proof.
  eexists _, _, _, _. split; [vm_compute; reflexivity|].
  split; [vm_compute; reflexivity|]. split; [vm_compute; reflexivity|].
  eapply (patcher_shares_bonds ethene_externals elements same_carbon difluoroethene
            difluoroethene_state _ _ 1 2); vm_compute; reflexivity.
Defined.

(** ** The calls to the graph library *)

Global Instance same_calls_refl : Reflexive same_calls.
Proof. by intros σ. Qed.

Global Instance same_calls_trans : Transitive same_calls.
Proof. unfold same_calls. intros σ1 σ2 σ3 H1 H2. congruence. Qed.

Lemma same_calls_get_heap : preserves same_calls get_heap.
Proof. by intros σ. Qed.
Lemma same_calls_put_heap h : preserves same_calls (put_heap h).
Proof. by intros σ. Qed.
Lemma same_calls_read_atom l : preserves same_calls (read_atom l).
Proof. by intros σ. Qed.
Lemma same_calls_read_bond l : preserves same_calls (read_bond l).
Proof. by intros σ. Qed.
Lemma same_calls_write_atom l f : preserves same_calls (write_atom l f).
Proof. by intros σ. Qed.
Lemma same_calls_index {K} `{Countable K} {V} (d : gmap K V) k :
  preserves same_calls (index d k).
Proof. by intros σ. Qed.

#[global] Hint Resolve same_calls_get_heap same_calls_put_heap same_calls_read_atom
  same_calls_read_bond same_calls_write_atom same_calls_index : preserves.

Lemma same_calls_translate_atom E structure new n :
  preserves same_calls (translate_atom E structure new n).
Proof. unfold translate_atom. auto 30 with preserves. Qed.

Lemma same_calls_translate_bond E structure new nm :
  preserves same_calls (translate_bond E structure new nm).
Proof. unfold translate_bond. auto 30 with preserves. Qed.

Lemma same_calls_translate_stereo E structure new ma mb :
  preserves same_calls (translate_stereo E structure new ma mb).
Proof.
  unfold translate_stereo.
  pose proof same_calls_translate_atom. pose proof same_calls_translate_bond.
  auto 20 with preserves.
Qed.

Lemma hydrogen_turn E new n l σ :
  ∃ σ1, (a ← read_atom l;
         match implicit_hydrogens a with
         | None =>
             call (CalcImplicit n);;
             h ← get_heap;
             write_atom l (set_hydrogens (calc_implicit E h new n))
         | Some _ => mret ()
         end) σ = (Ok (), σ1) ∧
        calls σ1 = calls σ ++
          match implicit_hydrogens (atom_at (heap σ) l) with
          | None => [CalcImplicit n]
          | Some _ => []
          end.
Proof.
  unfold_M. unfold write_atom. unfold_M. simpl.
  destruct (implicit_hydrogens (atom_at (heap σ) l)); simpl.
  - exists σ. by rewrite app_nil_r.
  - by eexists.
Qed.

Lemma hydrogens_loop E new atoms : ∀ σ,
  ∃ σ' ns,
    for_ atoms
      (λ '(n, l) _,
         a ← read_atom l;
         match implicit_hydrogens a with
         | None =>
             call (CalcImplicit n);;
             h ← get_heap;
             write_atom l (set_hydrogens (calc_implicit E h new n))
         | Some _ => mret ()
         end) () σ = (Ok (), σ') ∧
    sublist ns (Dict.keys atoms) ∧ calls σ' = calls σ ++ (CalcImplicit <$> ns).
Proof.
  induction atoms as [|[n l] atoms IH]; intros σ; simpl.
  { exists σ, []. by rewrite app_nil_r. }
  rewrite bind_run. destruct (hydrogen_turn E new n l σ) as (σ1 & -> & Hc1).
  destruct (IH σ1) as (σ' & ns & -> & Hsub & Hc).
  destruct (implicit_hydrogens (atom_at (heap σ) l)).
  - exists σ', ns. split; [done|]. split; [by apply sublist_cons|].
    by rewrite Hc, Hc1, app_nil_r.
  - exists σ', (n :: ns). split; [done|]. split; [by apply sublist_skip|].
    rewrite Hc, Hc1. simpl. by rewrite <- app_assoc.
Qed.

Lemma post_assembly_calls E new σ :
  ∃ σ' ns, post_assembly E new σ = (Ok (), σ') ∧
    sublist ns (Dict.keys (_atoms new)) ∧
    calls σ' = calls σ ++ (CalcImplicit <$> ns) ++ [CalcLabels].
Proof.
  unfold post_assembly. rewrite bind_run.
  destruct (hydrogens_loop E new (_atoms new) σ) as (σ1 & ns & -> & Hsub & Hc).
  unfold_M. simpl. eexists _, ns. split; [done|]. split; [done|].
  simpl. by rewrite Hc, <- app_assoc.
Qed.

Lemma finalize_trace E self new σ :
  ∃ σ' aromatized, finalize E self new σ = (Ok (), σ') ∧
    calls σ' = calls σ ++ finalizer_calls self aromatized.
Proof.
  unfold finalize, finalizer_calls. unfold_M. destruct (_fix_rings self); simpl.
  - destruct (thiele E _ new _) as [h2 b] eqn:Ht. exists
      (if b then {| heap := h2; mapping := mapping σ;
                    calls := (calls σ ++ [Kekule]) ++ [Thiele (_fix_tautomers self)] |}
       else {| heap := fix_stereo E h2 new; mapping := mapping σ;
               calls := ((calls σ ++ [Kekule]) ++ [Thiele (_fix_tautomers self)])
                          ++ [FixStereo] |}), b.
    destruct b; simpl; rewrite <- ?app_assoc; done.
  - eexists _, false. done.
Qed.

(** X15 ([_patcher], lines 165-198): the trace records the five routines
    that modify the new graph: [calc_implicit], [calc_labels], [kekule],
    [thiele] and [fix_stereo]. When [_patcher] returns, its own calls to
    them were made in this order: [calc_implicit] for some atoms of the new graph, in
    the order of its atom table, each at most once per entry; then
    [calc_labels] once; then the finalizers of lines 193-198. None of the
    five is called before the new graph is assembled, or between
    [calc_labels] and the finalizers. (The sign translations of lines
    176-190 compute a value; they are not among the traced routines.) *)
Theorem patcher_call_trace E set_iter self structure σ new σ' :
  _patcher E set_iter self structure σ = (Ok new, σ') →
  ∃ ns aromatized,
    sublist ns (Dict.keys (_atoms new)) ∧
    calls σ' = calls σ ++ (CalcImplicit <$> ns) ++ [CalcLabels]
                 ++ finalizer_calls self aromatized.
Proof.
  unfold _patcher. rewrite bind_run.
  destruct (extends_assemble set_iter self structure σ) as (_ & _ & Hc1).
  destruct (assemble set_iter self structure σ) as [[[st d]|] σ1]; [|done].
  simpl in Hc1. rewrite bind_run.
  destruct (post_assembly_calls E (new_graph st) σ1) as (σ2 & ns & -> & Hsub & Hc2).
  rewrite bind_run.
  pose proof (same_calls_translate_stereo E structure (new_graph st) (stereo_atoms st)
                (stereo_bonds st) σ2) as Hc3.
  destruct (translate_stereo _ _ _ _ _ σ2) as [[[]|] σ3]; [|done].
  simpl in Hc3. rewrite bind_run.
  destruct (finalize_trace E self (new_graph st) σ3) as (σ4 & b & -> & Hc4).
  intros [= <- <-]. exists ns, b. split; [done|].
  rewrite Hc4, Hc3, Hc2, Hc1, <- !app_assoc. done.
Qed.

Lemma patcher_call_trace_witness :
  ∃ new σ',
    _patcher ethene_externals elements same_carbon difluoroethene difluoroethene_state
      = (Ok new, σ') ∧
    ∃ ns aromatized,
      sublist ns (Dict.keys (_atoms new)) ∧
      calls σ' = calls difluoroethene_state ++ (CalcImplicit <$> ns) ++ [CalcLabels]
                   ++ finalizer_calls same_carbon aromatized.
Proof.
  eexists _, _. split; [vm_compute; reflexivity|].
  eapply (patcher_call_trace ethene_externals elements same_carbon difluoroethene
            difluoroethene_state).
  vm_compute. reflexivity.
Defined.

(** ** What the translation of stereo labels writes *)

Lemma set_stereo_same a : set_stereo (stereo a) a = a.
Proof. by destruct a. Qed.

Global Instance stereo_only_refl P : Reflexive (stereo_only P).
Proof.
  intros σ. split_and!; try done. intros l. split; [|done].
  exists (stereo (atom_at (heap σ) l)). by rewrite set_stereo_same.
Qed.

Global Instance stereo_only_trans P : Transitive (stereo_only P).
Proof.
  intros σ1 σ2 σ3 (Hb1 & Hm1 & Hc1 & Ha1) (Hb2 & Hm2 & Hc2 & Ha2).
  split_and!; try congruence. intros l.
  destruct (Ha1 l) as [[s1 E1] N1], (Ha2 l) as [[s2 E2] N2]. split.
  - exists s2. by rewrite E2, E1.
  - intros Hl. by rewrite N2, N1.
Qed.

Lemma stereo_only_get_heap P : preserves (stereo_only P) get_heap.
Proof. intros σ. reflexivity. Qed.
Lemma stereo_only_read_atom P l : preserves (stereo_only P) (read_atom l).
Proof. intros σ. reflexivity. Qed.
Lemma stereo_only_read_bond P l : preserves (stereo_only P) (read_bond l).
Proof. intros σ. reflexivity. Qed.
Lemma stereo_only_index P {K} `{Countable K} {V} (d : gmap K V) k :
  preserves (stereo_only P) (index d k).
Proof. intros σ. reflexivity. Qed.

Lemma stereo_only_write P l s :
  P l → preserves (stereo_only P) (write_atom l (set_stereo s)).
Proof.
  intros Hl σ. split_and!; try done. intros k. unfold atom_at. simpl.
  destruct (decide (k = l)) as [->|Hk].
  - rewrite lookup_insert_eq. simpl. split; [by eexists|done].
  - rewrite lookup_insert_ne by done. split; [|done].
    eexists. by rewrite set_stereo_same.
Qed.

#[global] Hint Extern 1 (Reflexive _) => typeclasses eauto : preserves.
#[global] Hint Extern 1 (Transitive _) => typeclasses eauto : preserves.
#[global] Hint Resolve stereo_only_get_heap stereo_only_read_atom stereo_only_read_bond
  stereo_only_index : preserves.

Lemma preserves_subscript (R : relation State) `{!Reflexive R, !Transitive R}
    {V B} (d : list (Z * V)) k (f : V → M B) :
  (∀ v, Dict.get d k = Some v → preserves R (f v)) →
  preserves R (v ← lift (subscript d k); f v).
Proof.
  intros Hf σ. rewrite bind_run. unfold lift, subscript.
  destruct (Dict.get d k) as [v|] eqn:Hv; [by apply Hf|]. simpl. reflexivity.
Qed.

Lemma stereo_only_translate_atom P E structure new n :
  (∀ l, Dict.get (_atoms new) n = Some l → P l) →
  preserves (stereo_only P) (translate_atom E structure new n).
Proof.
  intros HP. unfold translate_atom.
  apply (preserves_bind (stereo_only P)); [auto with preserves|]. intros h.
  case_decide; [|case_decide; [|auto with preserves]].
  - apply (preserves_bind (stereo_only P)); [auto with preserves|]. intros row.
    apply (preserves_bind (stereo_only P)); [auto with preserves|]. intros nrow.
    case_decide; [auto with preserves|].
    apply (preserves_bind (stereo_only P)); [auto with preserves|]. intros env.
    apply (preserves_bind (stereo_only P)); [auto with preserves|]. intros l.
    apply (preserves_bind (stereo_only P)); [auto with preserves|]. intros sa.
    apply (preserves_subscript (stereo_only P)). intros nl Hnl.
    apply stereo_only_write. by apply HP.
  - apply (preserves_bind (stereo_only P)); [auto with preserves|]. intros nt.
    apply (preserves_bind (stereo_only P)); [auto with preserves|]. intros t.
    case_decide; [auto with preserves|].
    apply (preserves_bind (stereo_only P)); [auto with preserves|]. intros t'.
    apply (preserves_bind (stereo_only P)); [auto with preserves|]. intros l.
    apply (preserves_bind (stereo_only P)); [auto with preserves|]. intros sa.
    apply (preserves_subscript (stereo_only P)). intros nl Hnl.
    apply stereo_only_write. by apply HP.
Qed.

Lemma stereo_only_translate_bond P E structure new nm :
  preserves (stereo_only P) (translate_bond E structure new nm).
Proof. unfold translate_bond. auto 30 with preserves. Qed.

Lemma preserves_for_elem (R : relation State) `{!Reflexive R, !Transitive R}
    {X A} (xs : list X) (body : X → A → M A) :
  (∀ x acc, x ∈ xs → preserves R (body x acc)) → ∀ acc, preserves R (for_ xs body acc).
Proof.
  induction xs as [|x xs IH]; intros Hb acc; simpl.
  - apply (preserves_ret R acc).
  - apply (preserves_bind R (body x acc)); [apply Hb; by left|].
    intros a. apply IH. intros x' acc' Hx'. apply Hb. by right.
Qed.

(** X16 ([_patcher], lines 170-191): the translation of the stereo
    labels, however it ends, writes nothing but the stereo label of atoms
    of the new graph that were marked for it: every bond object, the
    mapping and every other field of every atom are as before, and an
    atom object that is not the new graph's atom of a marked number is
    untouched. In particular no bond ever receives a label there. *)
Theorem translate_stereo_frame E structure new marked_atoms marked_bonds σ :
  let σ' := (translate_stereo E structure new marked_atoms marked_bonds σ).2 in
  bond_obj (heap σ') = bond_obj (heap σ) ∧ mapping σ' = mapping σ ∧
  calls σ' = calls σ ∧
  ∀ l, (∃ s, atom_at (heap σ') l = set_stereo s (atom_at (heap σ) l)) ∧
       ((∀ n, n ∈ marked_atoms → Dict.get (_atoms new) n ≠ Some l) →
        atom_at (heap σ') l = atom_at (heap σ) l).
Proof.
  set (P := λ l, ∃ n, n ∈ marked_atoms ∧ Dict.get (_atoms new) n = Some l).
  assert (preserves (stereo_only P)
            (translate_stereo E structure new marked_atoms marked_bonds)) as Hp.
  { unfold translate_stereo. apply (preserves_bind (stereo_only P)).
    - apply (preserves_for_elem (stereo_only P)). intros n [] Hn.
      apply stereo_only_translate_atom. intros l Hl. by exists n.
    - intros []. apply (preserves_for (stereo_only P)). intros nm [].
      apply stereo_only_translate_bond. }
  destruct (Hp σ) as (Hb & Hm & Hc & Ha). simpl. split_and!; try done.
  intros l. destruct (Ha l) as [Hs Hn]. split; [done|].
  intros Hl. apply Hn. intros (n & Hin & Hget). by eapply Hl.
Qed.

(** ** When the loop over the replacement atoms returns *)

Lemma patch_atom_returns atoms n ra st σ :
  (∃ st' σ', patch_atom atoms n ra st σ = (Ok st', σ')) ↔ accepted atoms (mapping σ) (n, ra).
Proof.
  unfold accepted, patch_atom. simpl.
  destruct ra as [rc rr rs|z iso rc rr rs hs|z iso rc rr rs h c]; unfold_M; simpl.
  all: destruct (truthy (mapping σ !! n)) as [m|] eqn:Hm; simpl.
  all: try (rewrite <- dict_get_is_Some; unfold subscript;
            destruct (Dict.get atoms m) as [l|] eqn:Hl; simpl;
            [split; [by eauto|]; intros _;
             match goal with |- context [matched_stereo ?a ?b ?c ?d ?e] =>
               destruct (matched_stereo a b c d e) as [a1 st1] end;
             by eexists _, _
            |split; [by intros (? & ? & ?)|by intros [? ?]]]).
  - split; [by intros (? & ? & ?)|done].
  - destruct hs as [|h [|h' hs]]; simpl.
    + split; [intros _; lia|intros _; by eexists _, _].
    + split; [intros _; lia|intros _; by eexists _, _].
    + split; [by intros (? & ? & ?)|lia].
  - split; [done|intros _; by eexists _, _].
Qed.

Lemma accepted_other atoms mp mp' nra :
  mp' !! nra.1 = mp !! nra.1 → accepted atoms mp' nra ↔ accepted atoms mp nra.
Proof. unfold accepted. by intros ->. Qed.

(** X17 ([_patcher], lines 84-124): the loop over the replacement atoms
    returns exactly when every replacement atom is acceptable for the
    mapping the caller passed: an atom with a (non-zero) entry is mapped
    to an atom of the host, and an atom without one is not an
    [AnyElement] and, as a [QueryElement], lists at most one hydrogen
    count. In every other case the loop raises. *)
Theorem patch_atoms_returns atoms rep st σ :
  NoDup (Dict.keys (r_atoms rep)) →
  (∃ st' σ', patch_atoms atoms rep st σ = (Ok st', σ')) ↔
  Forall (accepted atoms (mapping σ)) (r_atoms rep).
Proof.
  unfold patch_atoms. generalize (r_atoms rep). intros ras. revert st σ.
  induction ras as [|[n ra] ras IH]; intros st σ Hnd; simpl.
  { split; [done|]. intros _. by eexists _, _. }
  simpl in Hnd. apply NoDup_cons in Hnd as [Hn Hnd].
  rewrite Forall_cons, bind_run.
  pose proof (patch_atom_returns atoms n ra st σ) as Hhead.
  assert (∀ σ1, (∀ k, k ≠ n → mapping σ1 !! k = mapping σ !! k) →
                Forall (accepted atoms (mapping σ1)) ras ↔
                Forall (accepted atoms (mapping σ)) ras) as Htail.
  { intros σ1 Hσ1. rewrite !Forall_forall. apply forall_proper. intros [k rk].
    apply forall_proper. intros Hk. apply accepted_other. simpl. apply Hσ1.
    intros ->. apply Hn. apply list_elem_of_fmap. by exists (n, rk). }
  pose proof (λ k, patch_atom_other atoms n ra st σ k) as Hoth.
  destruct (patch_atom atoms n ra st σ) as [[st1|e] σ1]; simpl in *.
  - rewrite (IH st1 σ1 Hnd), (Htail σ1) by (intros k Hk; by apply Hoth).
    split; [|tauto]. intros Ht. split; [|done]. apply Hhead. by eexists _, _.
  - split; [by intros (? & ? & ?)|]. intros [Ha _]. apply Hhead in Ha as (? & ? & ?). done.
Qed.

Lemma patch_atoms_returns_witness :
  ∃ st' σ', patch_atoms (_atoms methane) add_nitrogen (init_locals 1) methane_state
              = (Ok st', σ').
Proof.
  apply (patch_atoms_returns (_atoms methane) add_nitrogen (init_locals 1) methane_state).
  - simpl. apply NoDup_singleton.
  - simpl. apply Forall_singleton. vm_compute. done.
Defined.

(** ** Bonds join atoms of the new graph *)

Lemma closed_store m l st st' :
  tables_closed st →
  natoms st' = Dict.set m l (natoms st) → nbonds st' = Dict.set m [] (nbonds st) →
  tables_closed st'.
Proof.
  intros [Hd Hc] Hna Hnb. split.
  - rewrite Hna, Hnb, !dict_dom_set. by rewrite Hd.
  - rewrite Hnb. intros a b l0. rewrite cell_set_row, dict_dom_set.
    destruct (decide (a = m)); [done|]. intros H. apply Hc in H. set_solver.
Qed.

Lemma set_bond_closed n m l st σ st' σ' :
  tables_closed st → m ∈ Dict.dom (nbonds st) →
  set_bond n m l st σ = (Ok st', σ') → tables_closed st'.
Proof.
  intros [Hd Hc] Hm. unfold set_bond, subscript. unfold_M.
  destruct (Dict.get (nbonds st) n) as [row|] eqn:Hrow; simpl; [|done].
  intros [= <- <-]. simpl.
  assert (n ∈ Dict.dom (nbonds st)) as Hn by (apply dict_get_is_Some; eauto).
  assert (Dict.dom (Dict.set n (Dict.set m l row) (nbonds st)) = Dict.dom (nbonds st)) as Hdom.
  { rewrite dict_dom_set. set_solver. }
  split; simpl; rewrite Hdom; [done|].
  intros a b l0. rewrite cell_set_row. destruct (decide (a = n)) as [->|]; [|apply Hc].
  destruct (decide (b = m)) as [->|Hb]; [done|].
  rewrite dict_get_set_ne by done. intros Hl. apply (Hc n b l0).
  unfold cell. by rewrite Hrow.
Qed.

Lemma back_link_closed n m st σ st' σ' :
  tables_closed st → back_link n m st σ = (Ok st', σ') → tables_closed st'.
Proof.
  intros Hs. unfold back_link. rewrite !bind_run. unfold lift, subscript.
  destruct (Dict.get (nbonds st) m) as [row|] eqn:Hrow; [|done].
  destruct (Dict.get row n) as [l|] eqn:Hl; [|done].
  apply set_bond_closed; [done|]. apply dict_get_is_Some. eauto.
Qed.

Lemma mark_bond_closed n m st : tables_closed st → tables_closed (mark_bond n m st).
Proof. done. Qed.

Lemma patch_bond_closed bonds n m rb st σ st' σ' :
  tables_closed st →
  patch_bond bonds n m rb st σ = (Ok st', σ') → tables_closed st'.
Proof.
  intros Hs. unfold patch_bond. rewrite bind_run. unfold mapping_subscript at 1.
  destruct (mapping σ !! m) as [m'|]; [|done].
  rewrite bind_run. unfold lift at 1, subscript at 1.
  destruct (Dict.get (nbonds st) m') as [row|] eqn:Hrow; [|done].
  destruct (Dict.mem n row) eqn:Hmem; [by apply back_link_closed|].
  rewrite bind_run. simpl. rewrite bind_run.
  match goal with |- context [set_bond n m' ?l st ?σ1] =>
    destruct (set_bond n m' l st σ1) as [[st1|e] σ1'] eqn:Hset; [|done];
    apply set_bond_closed in Hset; [|done|apply dict_get_is_Some; eauto]
  end.
  destruct (tb_stereo rb); [unfold_M; by intros [= <- <-]|].
  rewrite bind_run. unfold host_bond_stereo.
  destruct (Dict.get bonds n) as [sbn|]; [|unfold_M; by intros [= <- <-]].
  destruct (Dict.get sbn m'); [|unfold_M; by intros [= <- <-]].
  unfold_M. simpl. destruct (bstereo _); by intros [= <- <-].
Qed.

Lemma carry_bond_closed pa td n m l st σ st' σ' :
  tables_closed st →
  carry_bond pa td n m l st σ = (Ok st', σ') → tables_closed st'.
Proof.
  intros Hs. unfold carry_bond. case_decide; [unfold_M; by intros [= <- <-]|].
  rewrite bind_run. unfold lift at 1, subscript at 1.
  destruct (Dict.get (nbonds st) m) as [row|] eqn:Hrow; [|done].
  assert (m ∈ Dict.dom (nbonds st)) as Hm by (apply dict_get_is_Some; eauto).
  destruct (Dict.mem n row) eqn:Hmem; [by apply back_link_closed|].
  rewrite bind_run. unfold read_bond at 1. cbv beta iota.
  case_decide.
  - rewrite bind_run. simpl. rewrite bind_run.
    match goal with |- context [set_bond n m ?l1 st ?σ1] =>
      destruct (set_bond n m l1 st σ1) as [[st1|e] σ1'] eqn:Hset; [|done];
      apply set_bond_closed in Hset; [|done..]
    end.
    unfold_M. by intros [= <- <-].
  - rewrite bind_run. simpl. by apply set_bond_closed.
Qed.

Lemma patch_atom_closed atoms n ra st σ st' σ' :
  tables_closed st → patch_atom atoms n ra st σ = (Ok st', σ') → tables_closed st'.
Proof.
  intros Hs H. apply patch_atom_ok in H as (m & a & Hna & Hnb & _).
  by eapply closed_store.
Qed.

Lemma assemble_closed set_iter self structure σ st d σ' :
  assemble set_iter self structure σ = (Ok (st, d), σ') → tables_closed st.
Proof.
  unfold assemble. rewrite bind_run. simpl. rewrite bind_run. unfold lift at 1.
  destruct (_get_deleted _ _ _ _) as [d0|]; [|done].
  rewrite bind_run. unfold lift at 1. destruct (max_key _) as [mx|]; [|done].
  rewrite bind_run.
  destruct (patch_atoms _ _ _ σ) as [[st1|] σ1] eqn:H1; [|done].
  rewrite bind_run.
  destruct (patch_bonds _ _ st1 σ1) as [[st2|] σ2] eqn:H2; [|done].
  rewrite bind_run.
  destruct (carry_atoms _ _ d0 st2 σ2) as [[st3|] σ3] eqn:H3; [|done].
  rewrite bind_run.
  destruct (carry_bonds _ _ d0 st3 σ3) as [[st4|] σ4] eqn:H4; [|done].
  intros [= <- <- <-].
  assert (tables_closed st1) as S1.
  { unfold patch_atoms in H1. revert H1. apply (for_Ok_inv tables_closed).
    - intros [n ra] acc s acc' s' _. apply patch_atom_closed.
    - split; [done|]. intros n m l. by unfold cell. }
  assert (tables_closed st2) as S2.
  { unfold patch_bonds in H2. revert H2. apply (for_Ok_inv tables_closed); [|done].
    intros [n bs] acc s acc' s' _ Hacc. rewrite bind_run.
    unfold mapping_subscript at 1. destruct (mapping s !! n) as [n'|]; [|done].
    apply (for_Ok_inv tables_closed); [|done].
    intros [m rb] a1 s1 a2 s2 _. apply patch_bond_closed. }
  assert (tables_closed st3) as S3.
  { unfold carry_atoms in H3. revert H3. apply (for_Ok_inv tables_closed); [|done].
    intros [n l] acc s acc' s' _ Hacc. case_decide; [|unfold_M; by intros [= <- <-]].
    unfold_M. simpl. intros [= <- <-]. by eapply closed_store. }
  unfold carry_bonds in H4. revert H4. apply (for_Ok_inv tables_closed); [|done].
  intros [n bs] acc s acc' s' _ Hacc. case_decide; [unfold_M; by intros [= <- <-]|].
  apply (for_Ok_inv tables_closed); [|done].
  intros [m l] a1 s1 a2 s2 _. apply carry_bond_closed.
Qed.

(** X18 ([_patcher], lines 84-163): in the graph that [_patcher] returns
    the atom table and the bond table have the same keys, and every bond
    joins two atoms of that graph: a neighbour recorded in a bond row is
    itself an atom of the new graph. *)
Theorem patcher_bonds_closed E set_iter self structure σ new σ' :
  _patcher E set_iter self structure σ = (Ok new, σ') →
  Dict.dom (_atoms new) = Dict.dom (_bonds new) ∧
  ∀ n m l, cell (_bonds new) n m = Some l →
           n ∈ Dict.dom (_atoms new) ∧ m ∈ Dict.dom (_atoms new).
Proof.
  unfold _patcher. rewrite bind_run.
  destruct (assemble set_iter self structure σ) as [[[st d]|] σ1] eqn:Ha; [|done].
  apply assemble_closed in Ha as [Hd Hc].
  rewrite bind_run. destruct (post_assembly _ _ σ1) as [[[]|] σ2]; [|done].
  rewrite bind_run. destruct (translate_stereo _ _ _ _ _ σ2) as [[[]|] σ3]; [|done].
  rewrite bind_run. destruct (finalize _ _ _ σ3) as [[[]|] σ4]; [|done].
  intros [= <- <-]. simpl. split; [done|]. intros n m l Hl. rewrite Hd. split.
  - unfold cell in Hl. apply dict_get_is_Some.
    destruct (Dict.get (nbonds st) n); [by eexists|done].
  - by eapply Hc.
Qed.

Lemma patcher_bonds_closed_witness :
  ∃ new σ',
    _patcher ethene_externals elements same_carbon difluoroethene difluoroethene_state
      = (Ok new, σ') ∧
    Dict.dom (_atoms new) = Dict.dom (_bonds new) ∧
    ∀ n m l, cell (_bonds new) n m = Some l →
             n ∈ Dict.dom (_atoms new) ∧ m ∈ Dict.dom (_atoms new).
Proof.
  eexists _, _. split; [vm_compute; reflexivity|].
  eapply (patcher_bonds_closed ethene_externals elements same_carbon difluoroethene
            difluoroethene_state).
  vm_compute. reflexivity.
Defined.

(** ** C1: a walk that starts at a core atom *)

(** the result for given orders of enumeration of the two sets *)
Lemma get_deleted_orders set_iter self structure mapping l1 core l2 :
  _to_delete self ≠ ∅ →
  set_iter (_to_delete self) = l1 → map_core mapping l1 = Ok core →
  set_iter core = l2 →
  _get_deleted set_iter self structure mapping =
  rbind (scan_core (_bonds structure) core (map_img mapping ∖ core) l2 ∅ ∅)
    (λ '(delete, _), Ok (core ∪ delete)).
Proof.
  intros Hne H1 Hcore H2. unfold _get_deleted.
  rewrite decide_False by done. rewrite H1, Hcore. simpl. by rewrite H2.
Qed.

Lemma set_iter_pair (set_iter : gset Z → list Z) (X : gset Z) a b :
  (∀ X, set_iter X ≡ₚ elements X) → elements X = [a; b] →
  set_iter X = [a; b] ∨ set_iter X = [b; a].
Proof.
  intros Hperm HX. specialize (Hperm X). rewrite HX in Hperm.
  symmetry in Hperm. by apply Permutation.Permutation_length_2_inv in Hperm.
Qed.

(** C1. The walk of lines 54-65 is also started at a neighbour that is
    itself a core atom (line 52 tests only [global_seen] and [remain]),
    and then goes on through the neighbours of that core atom, although a
    core atom met later is skipped (lines 61-62). On the host
    [two_dangling] the atoms 5 and 6 are bonded to a core atom only, so
    both walks from them run out and both are to be deleted; but the
    code, whatever the order in which the sets are enumerated, keeps one
    of them: the walk started at the core atom 3 (or 2) visits 5 (or 6),
    reaches a retained atom, and leaves it marked as seen. *)
Theorem dangling_atom_survives set_iter :
  (∀ X, set_iter X ≡ₚ elements X) →
  Dict.keys <$> Dict.get (_bonds two_dangling) 5 = Some [3] ∧
  Dict.keys <$> Dict.get (_bonds two_dangling) 6 = Some [2] ∧
  ∃ res, _get_deleted set_iter bridge_reactor two_dangling bridge_mapping = Ok res ∧
         (res = {[2; 3; 6]} ∨ res = {[2; 3; 5]}).
Proof.
  intros Hperm. split; [done|]. split; [done|].
  assert (_to_delete bridge_reactor ≠ ∅) as Hne.
  { intros H. assert (20 ∈ _to_delete bridge_reactor) as H20 by (simpl; set_solver).
    rewrite H in H20. set_solver. }
  assert (elements (_to_delete bridge_reactor) = [30; 20]) as E1 by (vm_compute; reflexivity).
  assert (elements ({[2; 3]} : gset Z) = [3; 2]) as E2 by (vm_compute; reflexivity).
  assert (∀ l1, l1 = [30; 20] ∨ l1 = [20; 30] → map_core bridge_mapping l1 = Ok {[2; 3]})
    as Hcore by (intros l1 [->| ->]; vm_compute; reflexivity).
  pose proof (set_iter_pair set_iter _ 30 20 Hperm E1) as H1.
  pose proof (Hcore _ H1) as Hc.
  destruct (set_iter_pair set_iter _ 3 2 Hperm E2) as [H2|H2].
  - exists {[2; 3; 5]}. split; [|by right].
    rewrite (get_deleted_orders set_iter _ _ _ _ {[2; 3]} [3; 2] Hne eq_refl Hc H2).
    vm_compute. reflexivity.
  - exists {[2; 3; 6]}. split; [|by left].
    rewrite (get_deleted_orders set_iter _ _ _ _ {[2; 3]} [2; 3] Hne eq_refl Hc H2).
    vm_compute. reflexivity.
Qed.

Lemma dangling_atom_survives_witness :
  Dict.keys <$> Dict.get (_bonds two_dangling) 5 = Some [3] ∧
  Dict.keys <$> Dict.get (_bonds two_dangling) 6 = Some [2] ∧
  ∃ res, _get_deleted elements bridge_reactor two_dangling bridge_mapping = Ok res ∧
         (res = {[2; 3; 6]} ∨ res = {[2; 3; 5]}).
Proof.
  apply (dangling_atom_survives elements). intros X. reflexivity.
Defined.
